(** * Prefetching-Test: the Fibonacci lookahead traversal of [prefetch.c]

    A shallow embedding of [fibo_lookahead_foreach], its ring navigation
    ([inc_ring], [dec_ring]) and the three operations ([prefetch],
    [increment], [nop]), followed by the properties of the specification.

    Machine integers are integers of [Z] with their wrap-around written
    out: [uint64_t] arithmetic is taken modulo 2^64, [int] and [long]
    arithmetic wraps in two's complement (C leaves the signed case
    undefined; the wrap is what the machine's addition produces).  An
    array is a list; an access outside the array has no defined result
    and is [None], as is a loop that never ends. *)

From stdpp Require Import base option list.
From Stdlib Require Import ZArith Lia.

Local Open Scope Z_scope.

(** ** Machine integers *)

Definition INT_MAX : Z := 2 ^ 31 - 1.
Definition LONG_MAX : Z := 2 ^ 63 - 1.
Definition LONG_MIN : Z := - 2 ^ 63.

(** Largest ring size for which [i + n - 1] fits an [int] for every
    position [i] of the ring. *)
Definition RING_MAX : Z := 2 ^ 30.

Definition u64 (z : Z) : Z := z mod 2 ^ 64.
Definition wrap_int (z : Z) : Z := (z + 2 ^ 31) mod 2 ^ 32 - 2 ^ 31.
Definition wrap_long (z : Z) : Z := (z + 2 ^ 63) mod 2 ^ 64 - 2 ^ 63.

(** ** Arrays *)

Definition load {A : Type} (a : list A) (i : Z) : option A :=
  if 0 <=? i then a !! Z.to_nat i else None.

Definition store {A : Type} (a : list A) (i : Z) (v : A) : option (list A) :=
  if (0 <=? i) && (i <? Z.of_nat (length a))
  then Some (<[Z.to_nat i := v]> a)
  else None.

(** ** Ring navigation (prefetch.c, lines 57-65) *)

Definition inc_ring (i n : Z) : Z :=
  let next := wrap_int (i + 1) in
  if next >=? n then 0 else next.

Definition dec_ring (i n : Z) : Z :=
  let next := wrap_int (wrap_int (i + n) - 1) in
  if next >=? n then wrap_int (next - n) else next.

(** ** Reduction by repeated subtraction

    [while (index >= len) index -= len;] on a [uint64_t].  The result
    carries the number of subtractions performed.  [fuel] bounds the
    number of times the loop condition is evaluated. *)

Fixpoint reduce_loop (fuel : nat) (index len : Z) : option (Z * nat) :=
  match fuel with
  | O => None
  | S fuel' =>
      if index >=? len
      then '(r, c) ← reduce_loop fuel' (u64 (index - len)) len; Some (r, S c)
      else Some (index, O)
  end.

(** The loop on a variable, with the fuel it needs when it ends: one
    test more than the quotient ([index / 0] is [0], and the loop with
    [len = 0] ends for no fuel, see [reduce_loop_diverges]). *)
Definition reduce (index len : Z) : option (Z * nat) :=
  reduce_loop (S (Z.to_nat (index / len))) index len.

(** The same loop running on the ring slot [buf[i_buf]] (lines 49-51). *)
Fixpoint reduce_slot (fuel : nat) (buf : list Z) (i_buf len : Z)
  : option (list Z * nat) :=
  match fuel with
  | O => None
  | S fuel' =>
      v ← load buf i_buf;
      if v >=? len
      then buf' ← store buf i_buf (u64 (v - len));
           '(r, c) ← reduce_slot fuel' buf' i_buf len; Some (r, S c)
      else Some (buf, O)
  end.

(** ** Seeding the ring (prefetch.c, lines 27-41)

    The seeding loop, with [k] the iterations left ([n - i_buf]).  The
    counter never reaches [INT_MAX + 1], so [i_buf++] is exact. *)
Fixpoint fill (k : nat) (buf : list Z) (i_buf index follow len : Z)
  : option (list Z) :=
  match k with
  | O => Some buf
  | S k' =>
      buf' ← store buf i_buf index;
      let temp := index in
      let index := u64 (index + follow) in
      let follow := temp in
      '(index, _) ← reduce index len;
      fill k' buf' (i_buf + 1) index follow len
  end.

(** [calloc(n, sizeof(uint64_t))] followed by the seeding loop. *)
Definition seed (n len : Z) : option (list Z) :=
  fill (Z.to_nat n) (replicate (Z.to_nat n) 0) 0 1 0 len.

(** ** The traversal (prefetch.c, lines 25-55) *)

Section Traversal.
Context {D : Type}.

(** The type [op_t] of the source, a pointer to a function of a
    [long] array, its length and an index that returns nothing: an
    operation receives the data and leaves it changed, or has no defined
    result ([None]) when it reaches outside the data. *)
Definition op_t : Type := D → Z → Z → option D.

Record state : Type := State {
  st_data : D;
  st_buf : list Z;
  st_i_buf : Z
}.

Variables (len n : Z) (op_highest op_lowest : op_t).

(** Lines 45-53: one pass through the body of the main loop.  The sum
    is stored in the slot at [i_buf] and reduced there; the loop on the
    slot is given the tests it needs when it ends, as in [reduce]. *)
Definition iteration (s : state) : option state :=
  let buf := st_buf s in
  let i_buf := st_i_buf s in
  cur ← load buf i_buf;
  d1 ← op_lowest (st_data s) len cur;
  let prev := dec_ring i_buf n in
  a ← load buf prev;
  b ← load buf (dec_ring prev n);
  buf1 ← store buf i_buf (u64 (a + b));
  '(buf2, _) ← reduce_slot (S (Z.to_nat (u64 (a + b) / len))) buf1 i_buf len;
  v ← load buf2 i_buf;
  d2 ← op_highest d1 len v;
  Some (State d2 buf2 (inc_ring i_buf n)).

Fixpoint loop (k : nat) (s : state) : option state :=
  match k with
  | O => Some s
  | S k' => s' ← iteration s; loop k' s'
  end.

Definition traverse (data : D) (iters : Z) : option state :=
  buf ← seed n len;
  loop (Z.to_nat iters) (State data buf 0).

End Traversal.

Arguments op_t : clear implicits.
Arguments state : clear implicits.

Definition fibo_lookahead_foreach {D : Type} (data : D) (len iters : Z)
    (op_highest op_lowest : op_t D) (n : Z) : option D :=
  st_data <$> traverse len n op_highest op_lowest data iters.

(** ** The operations (prefetch.c, lines 67-77) *)

(** The memory the operations act on: the [long] counters of the data
    buffer and, next to them, the addresses handed to the cache as
    prefetch hints, most recent first.  The hints are what a prefetch
    leaves behind; no operation reads them. *)
Record mem : Type := Mem {
  cells : list Z;
  hints : list Z
}.

Definition prefetch (data : mem) (len index : Z) : option mem :=
  Some (Mem (cells data) (index :: hints data)).

Definition increment (data : mem) (len index : Z) : option mem :=
  c ← load (cells data) index;
  cs ← store (cells data) index (wrap_long (c + 1));
  Some (Mem cs (hints data)).

Definition nop (data : mem) (len index : Z) : option mem :=
  Some data.

(** ** Observing the calls

    An operation paired with a record of the call: which of the two
    operations was called, and with which index. *)
Inductive event : Type :=
  | Lowest (index : Z)
  | Highest (index : Z).

Definition ev_index (e : event) : Z :=
  match e with Lowest i | Highest i => i end.

Definition traced {D : Type} (tag : Z → event) (op : op_t D)
  : op_t (D * list event) :=
  λ d len index,
    d' ← op d.1 len index;
    Some (d', d.2 ++ [tag index]).

(** An operation that does nothing at all, on any data. *)
Definition skip {D : Type} : op_t D := λ d _ _, Some d.

(** The indices the traversal hands to its operations, in call order. *)
Definition calls (len iters n : Z) : option (list event) :=
  snd <$> fibo_lookahead_foreach (tt, []) len iters
            (traced Highest skip) (traced Lowest skip) n.

(** The sum of the counters. *)
Definition zsum (l : list Z) : Z := foldr Z.add 0 l.

(** ** The generated sequence

    The variables [(index, follow)] of the seeding loop after [j] rounds
    of its body (lines 35-40), for a length above [0]: the loop by
    subtraction leaves the remainder.  [term len j] is the value the
    generator produces at position [j]. *)
Fixpoint gen (len : Z) (j : nat) : Z * Z :=
  match j with
  | O => (1, 0)
  | S j' => let '(index, follow) := gen len j' in
            (u64 (index + follow) mod len, index)
  end.

Definition term (len : Z) (j : nat) : Z := (gen len j).1.

(** The Fibonacci numbers 0, 1, 1, 2, 3, 5, ... *)
Fixpoint fib_pair (j : nat) : Z * Z :=
  match j with
  | O => (0, 1)
  | S j' => let '(a, b) := fib_pair j' in (b, a + b)
  end.

Definition fib (j : nat) : Z := (fib_pair j).1.

(** How often [increment] is called on index [j] in a record of calls. *)
Fixpoint count_lowest (j : Z) (tr : list event) : Z :=
  match tr with
  | [] => 0
  | Lowest i :: tr' => (if i =? j then 1 else 0) + count_lowest j tr'
  | Highest _ :: tr' => count_lowest j tr'
  end.

Definition in_range (len v : Z) : Prop := 0 <= v < len.

(** Every index below [len] occurs as a call of the current operation. *)
Definition covers (len : nat) (tr : list event) : bool :=
  forallb (λ j, 0 <? count_lowest (Z.of_nat j) tr) (seq 0 len).

(** What is known of the counters [m] and the record [tr] after [j]
    iterations of a run that started from the counters [cs]. *)
Definition counted (cs : list Z) (j : nat) (p : mem * list event) : Prop :=
  length (cells p.1) = length cs
  ∧ (∀ k c, cs !! k = Some c →
            cells p.1 !! k = Some (c + count_lowest (Z.of_nat k) p.2))
  ∧ zsum (cells p.1) = zsum cs + Z.of_nat j
  ∧ (∀ k, 0 <= count_lowest k p.2 <= Z.of_nat j).

(** After [k] iterations: the ring has [n] slots, [i_buf] is [k] modulo
    [n], and the slot [j] positions on from [i_buf] holds the term
    [k + j] of the generated sequence. *)
Definition ring_at {D : Type} (len n : Z) (k : nat) (s : state D) : Prop :=
  Z.of_nat (length (st_buf s)) = n
  ∧ st_i_buf s = Z.of_nat k mod n
  ∧ ∀ j, 0 <= j < n →
      load (st_buf s) ((Z.of_nat k + j) mod n) =
        Some (term len (k + Z.to_nat j)).

(** ** Relating two runs

    [osim R o1 o2]: when the first run has a result, so has the second,
    and the results are related.  Two states are related when their data
    are and their rings and ring positions agree. *)
Definition osim {A B : Type} (R : A → B → Prop) (o1 : option A) (o2 : option B)
  : Prop :=
  ∀ x, o1 = Some x → ∃ y, o2 = Some y ∧ R x y.

Definition st_rel {D1 D2 : Type} (R : D1 → D2 → Prop)
    (s1 : state D1) (s2 : state D2) : Prop :=
  R (st_data s1) (st_data s2)
  ∧ st_buf s1 = st_buf s2
  ∧ st_i_buf s1 = st_i_buf s2.

(** ** The record of calls, by operation

    The indices handed to [op_lowest], and those handed to [op_highest],
    each in call order. *)
Fixpoint lows (tr : list event) : list Z :=
  match tr with
  | [] => []
  | Lowest i :: tr' => i :: lows tr'
  | Highest _ :: tr' => lows tr'
  end.

Fixpoint highs (tr : list event) : list Z :=
  match tr with
  | [] => []
  | Lowest _ :: tr' => highs tr'
  | Highest i :: tr' => i :: highs tr'
  end.

(** The ring read round from [i_buf]: the slot at [i_buf] first, the
    slot before it last. *)
Definition window (buf : list Z) (i_buf : Z) : list Z :=
  drop (Z.to_nat i_buf) buf ++ take (Z.to_nat i_buf) buf.

(** ** The benchmark (prefetch.c, lines 79-114)

    [main] runs the traversal twice, each time on a buffer of its own
    that [calloc] has zeroed: first with [nop], then with [prefetch] as
    the lookahead operation.  The clock readings and the two lines it
    prints are left out; what is kept is the two buffers as the runs
    leave them and the exit status. *)
Definition LEN : Z := 0x8000000.
Definition ITERS : Z := 50000000.
Definition NAHEAD : Z := 32.

Definition main : option (mem * mem * Z) :=
  let data0 := Mem (replicate (Z.to_nat LEN) 0) [] in
  let data1 := Mem (replicate (Z.to_nat LEN) 0) [] in
  data0 ← fibo_lookahead_foreach data0 LEN ITERS nop increment NAHEAD;
  data1 ← fibo_lookahead_foreach data1 LEN ITERS prefetch increment NAHEAD;
  Some (data0, data1, 0).

(** ** The program with its parameters fixed

    The second source file is the same program with the buffer length,
    the iteration count and the lookahead depth as the macros [LEN],
    [ITERS] and [NAHEAD] instead of arguments: the ring functions take a
    position only, the traversal takes the data and the two operations,
    and an operation takes the data and an index. *)
Module Macros.

Definition op_t (D : Type) : Type := D → Z → option D.

Definition inc_ring (i : Z) : Z :=
  let next := wrap_int (i + 1) in
  if next >=? NAHEAD then 0 else next.

Definition dec_ring (i : Z) : Z :=
  let next := wrap_int (wrap_int (i + NAHEAD) - 1) in
  if next >=? NAHEAD then wrap_int (next - NAHEAD) else next.

Fixpoint fill (k : nat) (buf : list Z) (i_buf index follow : Z)
  : option (list Z) :=
  match k with
  | O => Some buf
  | S k' =>
      buf' ← store buf i_buf index;
      let temp := index in
      let index := u64 (index + follow) in
      let follow := temp in
      '(index, _) ← reduce index LEN;
      fill k' buf' (i_buf + 1) index follow
  end.

Definition seed : option (list Z) :=
  fill (Z.to_nat NAHEAD) (replicate (Z.to_nat NAHEAD) 0) 0 1 0.

Definition iteration {D : Type} (op_highest op_lowest : op_t D) (s : state D)
  : option (state D) :=
  let buf := st_buf s in
  let i_buf := st_i_buf s in
  cur ← load buf i_buf;
  d1 ← op_lowest (st_data s) cur;
  let prev := dec_ring i_buf in
  a ← load buf prev;
  b ← load buf (dec_ring prev);
  buf1 ← store buf i_buf (u64 (a + b));
  '(buf2, _) ← reduce_slot (S (Z.to_nat (u64 (a + b) / LEN))) buf1 i_buf LEN;
  v ← load buf2 i_buf;
  d2 ← op_highest d1 v;
  Some (State d2 buf2 (inc_ring i_buf)).

Fixpoint loop {D : Type} (op_highest op_lowest : op_t D) (k : nat)
    (s : state D) : option (state D) :=
  match k with
  | O => Some s
  | S k' => s' ← iteration op_highest op_lowest s;
            loop op_highest op_lowest k' s'
  end.

(** The ring is freed when the loop is over; the data is what is left. *)
Definition fibo_lookahead_foreach {D : Type} (data : D)
    (op_highest op_lowest : op_t D) : option D :=
  buf ← seed;
  s ← loop op_highest op_lowest (Z.to_nat ITERS) (State data buf 0);
  Some (st_data s).

Definition prefetch (data : mem) (index : Z) : option mem :=
  Some (Mem (cells data) (index :: hints data)).

Definition increment (data : mem) (index : Z) : option mem :=
  c ← load (cells data) index;
  cs ← store (cells data) index (wrap_long (c + 1));
  Some (Mem cs (hints data)).

Definition nop (data : mem) (index : Z) : option mem :=
  Some data.

(** [main] as in [prefetch.c]; the two buffers are freed before it
    returns [EXIT_SUCCESS]. *)
Definition main : option (mem * mem * Z) :=
  let data0 := Mem (replicate (Z.to_nat LEN) 0) [] in
  let data1 := Mem (replicate (Z.to_nat LEN) 0) [] in
  data0 ← fibo_lookahead_foreach data0 nop increment;
  data1 ← fibo_lookahead_foreach data1 prefetch increment;
  Some (data0, data1, 0).

End Macros.

(** An operation of the fixed program as one of the program with
    arguments: the length it is handed is not looked at. *)
Definition with_len {D : Type} (op : Macros.op_t D) : op_t D :=
  λ d _ index, op d index.

Arguments u64 : simpl never.
Arguments wrap_int : simpl never.
Arguments wrap_long : simpl never.
Arguments load : simpl never.
Arguments store : simpl never.
Arguments inc_ring : simpl never.
Arguments dec_ring : simpl never.
Arguments reduce : simpl never.

(** * Properties *)

(** Reduce the binds of the option monad, by rewriting, and nothing
    else. *)
Lemma obind_Some {A B} (f : A → option B) x : Some x ≫= f = f x.
Proof. reflexivity. Qed.

Lemma obind_None {A B} (f : A → option B) : None ≫= f = None.
Proof. reflexivity. Qed.

Ltac simpl_bind :=
  repeat (rewrite obind_Some || rewrite obind_None); cbv beta iota.

Tactic Notation "simpl_bind" "in" hyp(H) :=
  repeat (rewrite obind_Some in H || rewrite obind_None in H);
  cbv beta iota in H.

Example seed_10_3 : seed 3 10 = Some [1; 1; 2].
Proof. reflexivity. Qed.

Example calls_10_3_5 :
  calls 10 5 3 = Some [Lowest 1; Highest 3; Lowest 1; Highest 5; Lowest 2;
                       Highest 8; Lowest 3; Highest 3; Lowest 5; Highest 1].
Proof. vm_compute. reflexivity. Qed.

(** ** Machine arithmetic *)

Lemma wrap_int_id z : - 2 ^ 31 <= z < 2 ^ 31 → wrap_int z = z.
Proof.
  intros Hz. unfold wrap_int.
  rewrite Z.mod_small; lia.
Qed.

Lemma wrap_long_id z : LONG_MIN <= z <= LONG_MAX → wrap_long z = z.
Proof.
  unfold LONG_MIN, LONG_MAX, wrap_long. intros Hz.
  rewrite Z.mod_small; lia.
Qed.

Lemma u64_id z : 0 <= z < 2 ^ 64 → u64 z = z.
Proof. intros Hz. unfold u64. apply Z.mod_small, Hz. Qed.

Lemma u64_range z : 0 <= u64 z < 2 ^ 64.
Proof. unfold u64. apply Z.mod_pos_bound. lia. Qed.

Lemma u64_le z : 0 <= z → u64 z <= z.
Proof. intros Hz. unfold u64. apply Z.mod_le; lia. Qed.

(** ** Arrays *)

Lemma load_Some {A} (a : list A) i v :
  load a i = Some v ↔ 0 <= i ∧ a !! Z.to_nat i = Some v.
Proof.
  unfold load. destruct (Z.leb_spec 0 i); split; intros H'; try tauto.
  - discriminate.
  - lia.
Qed.

Lemma load_lt {A} (a : list A) i v :
  load a i = Some v → 0 <= i < Z.of_nat (length a).
Proof.
  rewrite load_Some. intros [Hi Hv]. apply lookup_lt_Some in Hv. lia.
Qed.

Lemma load_is_Some {A} (a : list A) i :
  0 <= i < Z.of_nat (length a) → is_Some (load a i).
Proof.
  intros Hi. unfold load. destruct (Z.leb_spec 0 i); [|lia].
  apply lookup_lt_is_Some. lia.
Qed.

Lemma store_Some {A} (a : list A) i v :
  0 <= i < Z.of_nat (length a) → store a i v = Some (<[Z.to_nat i := v]> a).
Proof.
  intros Hi. unfold store.
  destruct (Z.leb_spec 0 i); [|lia].
  destruct (Z.ltb_spec i (Z.of_nat (length a))); [done|lia].
Qed.

Lemma load_store_eq {A} (a : list A) i v :
  0 <= i < Z.of_nat (length a) → load (<[Z.to_nat i := v]> a) i = Some v.
Proof.
  intros Hi. apply load_Some. split; [lia|].
  apply list_lookup_insert_eq. lia.
Qed.

Lemma load_store_ne {A} (a : list A) i j v :
  0 <= i → 0 <= j → i ≠ j → load (<[Z.to_nat i := v]> a) j = load a j.
Proof.
  intros Hi Hj Hne. unfold load. destruct (Z.leb_spec 0 j); [|done].
  apply list_lookup_insert_ne. lia.
Qed.

(** ** Ring navigation *)

Lemma inc_ring_spec i n :
  0 <= i < n → n <= INT_MAX →
  inc_ring i n = if decide (i + 1 = n) then 0 else i + 1.
Proof.
  unfold INT_MAX. intros Hi Hn. unfold inc_ring. cbv zeta.
  rewrite wrap_int_id by lia.
  destruct (Z.geb_spec (i + 1) n); case_decide; lia.
Qed.

Lemma dec_ring_spec i n :
  0 <= i < n → n <= RING_MAX →
  dec_ring i n = if decide (i = 0) then n - 1 else i - 1.
Proof.
  unfold RING_MAX. intros Hi Hn. unfold dec_ring. cbv zeta.
  rewrite (wrap_int_id (i + n)) by lia.
  rewrite (wrap_int_id (i + n - 1)) by lia.
  destruct (Z.geb_spec (i + n - 1) n); case_decide; try lia.
  rewrite wrap_int_id; lia.
Qed.

Lemma inc_ring_range i n : 0 <= i < n → n <= INT_MAX → 0 <= inc_ring i n < n.
Proof. intros Hi Hn. rewrite inc_ring_spec by done. case_decide; lia. Qed.

Lemma dec_ring_range i n : 0 <= i < n → n <= RING_MAX → 0 <= dec_ring i n < n.
Proof. intros Hi Hn. rewrite dec_ring_spec by done. case_decide; lia. Qed.

Lemma RING_MAX_INT_MAX n : n <= RING_MAX → n <= INT_MAX.
Proof. unfold RING_MAX, INT_MAX. lia. Qed.

(** Beyond [RING_MAX] the sum [i + n] of [dec_ring] leaves the range of
    [int] at the top positions, and what comes back is negative. *)
Lemma dec_ring_overflow i n :
  RING_MAX < n <= INT_MAX → INT_MAX + 1 - n < i < n → dec_ring i n < 0.
Proof.
  unfold RING_MAX, INT_MAX. intros Hn Hi. unfold dec_ring. cbv zeta.
  assert (wrap_int (i + n) = i + n - 2 ^ 32) as ->.
  { unfold wrap_int.
    replace (i + n + 2 ^ 31) with (i + n - 2 ^ 31 + 1 * 2 ^ 32) by lia.
    rewrite Z.mod_add by lia. rewrite Z.mod_small; lia. }
  rewrite (wrap_int_id (i + n - 2 ^ 32 - 1)) by lia.
  destruct (Z.geb_spec (i + n - 2 ^ 32 - 1) n); lia.
Qed.

(** ** Reduction *)

Lemma reduce_loop_spec fuel index len :
  0 < len → 0 <= index < 2 ^ 64 → (Z.to_nat (index / len) < fuel)%nat →
  reduce_loop fuel index len = Some (index mod len, Z.to_nat (index / len)).
Proof.
  intros Hlen. revert index.
  induction fuel as [|fuel IH]; intros index Hi Hf; [lia|].
  cbn [reduce_loop]. destruct (Z.geb_spec index len) as [Hge|Hlt].
  - rewrite u64_id by lia.
    assert (index / len = (index - len) / len + 1) as Hq.
    { replace index with (index - len + 1 * len) at 1 by lia.
      rewrite Z.div_add by lia. done. }
    assert (index mod len = (index - len) mod len) as Hm.
    { replace index with (index - len + 1 * len) at 1 by lia.
      rewrite Z.mod_add by lia. done. }
    assert (0 <= (index - len) / len) by (apply Z.div_pos; lia).
    rewrite IH by lia. cbn. rewrite Hm, Hq. do 2 f_equal. lia.
  - rewrite Z.mod_small, Z.div_small by lia. done.
Qed.

(** With a length of [0] the test [index >= len] never fails. *)
Lemma reduce_loop_diverges fuel index :
  0 <= index → reduce_loop fuel index 0 = None.
Proof.
  revert index. induction fuel as [|fuel IH]; intros index Hi; [done|].
  cbn [reduce_loop]. destruct (Z.geb_spec index 0); [|lia].
  rewrite IH; [done|]. apply u64_range.
Qed.

Lemma reduce_spec index len :
  0 < len → 0 <= index < 2 ^ 64 →
  reduce index len = Some (index mod len, Z.to_nat (index / len)).
Proof. intros Hlen Hi. unfold reduce. apply reduce_loop_spec; [done..|lia]. Qed.

(** The loop on a ring slot is the loop on the value in that slot. *)
Lemma reduce_slot_loop fuel buf i_buf len v :
  load buf i_buf = Some v →
  reduce_slot fuel buf i_buf len =
    '(r, c) ← reduce_loop fuel v len; Some (<[Z.to_nat i_buf := r]> buf, c).
Proof.
  revert buf v. induction fuel as [|fuel IH]; intros buf v Hv; [done|].
  cbn [reduce_slot reduce_loop]. rewrite Hv. cbn.
  pose proof (load_lt _ _ _ Hv) as Hi.
  destruct (v >=? len).
  - rewrite store_Some by done. cbn.
    rewrite (IH _ (u64 (v - len))).
    + destruct (reduce_loop fuel (u64 (v - len)) len) as [[r c]|]; [|done].
      cbn. by rewrite list_insert_insert_eq.
    + by apply load_store_eq.
  - cbn. rewrite list_insert_id; [done|]. by apply load_Some in Hv as [_ ?].
Qed.

(** ** Seeding *)

Lemma term_S_S len j :
  term len (S (S j)) = u64 (term len (S j) + term len j) mod len.
Proof.
  unfold term. cbn [gen]. destruct (gen len j) as [index follow]. done.
Qed.

Lemma term_range len j : 1 < len → 0 <= term len j < len.
Proof.
  intros Hlen. unfold term. destruct j as [|j]; cbn [gen]; [simpl; lia|].
  destruct (gen len j). cbn. apply Z.mod_pos_bound. lia.
Qed.

(** The seeding loop writes the generated sequence into the ring, one
    term per slot, and leaves the other slots alone. *)
Lemma fill_spec len k : ∀ j buf,
  0 < len → length buf = (j + k)%nat →
  ∃ buf', fill k buf (Z.of_nat j) (gen len j).1 (gen len j).2 len = Some buf'
    ∧ length buf' = length buf
    ∧ (∀ m, (m < j)%nat → buf' !! m = buf !! m)
    ∧ (∀ m, (j <= m < j + k)%nat → buf' !! m = Some (term len m)).
Proof.
  induction k as [|k IH]; intros j buf Hlen Hbuf.
  { exists buf. cbn. repeat split; try done. intros m Hm. lia. }
  cbn [fill]. rewrite store_Some by lia. cbn.
  destruct (gen len j) as [index follow] eqn:Hg.
  pose proof (u64_range (index + follow)) as Hu.
  cbn [fst snd]. rewrite reduce_spec by done. cbn.
  replace (Z.of_nat j + 1) with (Z.of_nat (S j)) by lia.
  rewrite Nat2Z.id.
  destruct (IH (S j) (<[j := index]> buf) Hlen) as (buf' & Hfill & Hl & Hlo & Hhi).
  { rewrite length_insert. lia. }
  cbn [gen] in Hfill. rewrite Hg in Hfill. cbn [fst snd] in Hfill.
  exists buf'. rewrite Hfill. rewrite length_insert in Hl.
  split; [done|]. split; [done|]. split.
  - intros m Hm. rewrite Hlo by lia. apply list_lookup_insert_ne. lia.
  - intros m Hm. destruct (decide (m = j)) as [->|Hne].
    + rewrite Hlo by lia. rewrite list_lookup_insert_eq by lia.
      unfold term. by rewrite Hg.
    + apply Hhi. lia.
Qed.

Lemma seed_spec n len :
  0 < len →
  ∃ buf, seed n len = Some buf
    ∧ length buf = Z.to_nat n
    ∧ ∀ m, (m < Z.to_nat n)%nat → buf !! m = Some (term len m).
Proof.
  intros Hlen. unfold seed.
  destruct (fill_spec len (Z.to_nat n) 0 (replicate (Z.to_nat n) 0) Hlen)
    as (buf & Hfill & Hl & _ & Hhi).
  { by rewrite length_replicate. }
  exists buf. change (Z.of_nat 0) with 0 in Hfill. cbn [gen fst snd] in Hfill.
  rewrite Hfill. rewrite length_replicate in Hl.
  split; [done|]. split; [done|]. intros m Hm. apply Hhi. lia.
Qed.

Lemma seed_range n len buf :
  1 < len → seed n len = Some buf → Forall (in_range len) buf.
Proof.
  intros Hlen Hseed.
  destruct (seed_spec n len) as (buf' & Hs & Hl & Hm); [lia|].
  rewrite Hseed in Hs. inversion Hs; subst buf'.
  apply Forall_lookup. intros m v Hv.
  rewrite Hm in Hv by (apply lookup_lt_Some in Hv; lia).
  inversion Hv; subst. by apply term_range.
Qed.

(** ** One iteration of the main loop *)

Section Iteration.
Context {D : Type}.
Variables (len n : Z) (op_highest op_lowest : op_t D).

Lemma reduce_slot_store (buf : list Z) i_buf s :
  0 < len → 0 <= i_buf < Z.of_nat (length buf) → 0 <= s < 2 ^ 64 →
  reduce_slot (S (Z.to_nat (s / len))) (<[Z.to_nat i_buf := s]> buf) i_buf len
  = Some (<[Z.to_nat i_buf := s mod len]> buf, Z.to_nat (s / len)).
Proof.
  intros Hlen Hi Hs.
  rewrite (reduce_slot_loop _ _ _ _ s) by by apply load_store_eq.
  rewrite reduce_loop_spec by (done || lia). simpl_bind.
  rewrite list_insert_insert_eq. done.
Qed.

(** What an iteration does once its three ring reads are known. *)
Lemma iteration_unfold d buf i_buf cur a b :
  0 < len →
  load buf i_buf = Some cur →
  load buf (dec_ring i_buf n) = Some a →
  load buf (dec_ring (dec_ring i_buf n) n) = Some b →
  iteration len n op_highest op_lowest (State d buf i_buf) =
    d1 ← op_lowest d len cur;
    d2 ← op_highest d1 len (u64 (a + b) mod len);
    Some (State d2 (<[Z.to_nat i_buf := u64 (a + b) mod len]> buf)
                (inc_ring i_buf n)).
Proof.
  intros Hlen Hcur Ha Hb. unfold iteration. cbn [st_buf st_i_buf st_data].
  rewrite Hcur. simpl_bind.
  destruct (op_lowest d len cur) as [d1|]; simpl_bind; [|reflexivity].
  rewrite Ha. simpl_bind. rewrite Hb. simpl_bind.
  pose proof (load_lt _ _ _ Hcur) as Hi.
  rewrite store_Some by done. simpl_bind.
  rewrite reduce_slot_store by (done || apply u64_range). simpl_bind.
  rewrite load_store_eq by done. simpl_bind. reflexivity.
Qed.

(** An iteration that has a result has made its three reads and both
    calls. *)
Lemma iteration_inv s s' :
  0 < len →
  iteration len n op_highest op_lowest s = Some s' →
  ∃ cur a b d1 d2,
    load (st_buf s) (st_i_buf s) = Some cur
    ∧ load (st_buf s) (dec_ring (st_i_buf s) n) = Some a
    ∧ load (st_buf s) (dec_ring (dec_ring (st_i_buf s) n) n) = Some b
    ∧ op_lowest (st_data s) len cur = Some d1
    ∧ op_highest d1 len (u64 (a + b) mod len) = Some d2
    ∧ s' = State d2 (<[Z.to_nat (st_i_buf s) := u64 (a + b) mod len]> (st_buf s))
                 (inc_ring (st_i_buf s) n).
Proof.
  intros Hlen Hit. destruct s as [d buf i_buf]. cbn [st_buf st_i_buf st_data].
  pose proof Hit as Hrun. unfold iteration in Hrun.
  cbn [st_buf st_i_buf st_data] in Hrun.
  destruct (load buf i_buf) as [cur|] eqn:Hcur; simpl_bind in Hrun; [|done].
  destruct (op_lowest d len cur) as [d1|] eqn:Hol; simpl_bind in Hrun; [|done].
  destruct (load buf (dec_ring i_buf n)) as [a|] eqn:Ha;
    simpl_bind in Hrun; [|done].
  destruct (load buf (dec_ring (dec_ring i_buf n) n)) as [b|] eqn:Hb;
    simpl_bind in Hrun; [|done].
  clear Hrun.
  rewrite (iteration_unfold _ _ _ cur a b) in Hit by done.
  rewrite Hol in Hit. simpl_bind in Hit.
  destruct (op_highest d1 len (u64 (a + b) mod len)) as [d2|] eqn:Hoh;
    simpl_bind in Hit; [|done].
  inversion Hit; subst s'.
  exists cur, a, b, d1, d2. done.
Qed.

(** On a ring of [n] slots, [n] at most [RING_MAX], the three reads
    are inside the ring. *)
Lemma ring_reads (buf : list Z) i_buf :
  0 < n <= RING_MAX → Z.of_nat (length buf) = n → 0 <= i_buf < n →
  ∃ cur a b,
    load buf i_buf = Some cur
    ∧ load buf (dec_ring i_buf n) = Some a
    ∧ load buf (dec_ring (dec_ring i_buf n) n) = Some b.
Proof.
  intros Hn Hbuf Hi.
  pose proof (dec_ring_range i_buf n Hi (proj2 Hn)) as Hp.
  pose proof (dec_ring_range _ n Hp (proj2 Hn)) as Hpp.
  destruct (load_is_Some buf i_buf) as [cur Hcur]; [lia|].
  destruct (load_is_Some buf (dec_ring i_buf n)) as [a Ha]; [lia|].
  destruct (load_is_Some buf (dec_ring (dec_ring i_buf n) n)) as [b Hb]; [lia|].
  by exists cur, a, b.
Qed.

(** The loop, one iteration at a time, from either end. *)
Lemma loop_snoc k s :
  loop len n op_highest op_lowest (S k) s =
    s' ← loop len n op_highest op_lowest k s;
    iteration len n op_highest op_lowest s'.
Proof.
  revert s. induction k as [|k IH]; intros s.
  - cbn. by destruct (iteration _ _ _ _ s).
  - change (loop len n op_highest op_lowest (S (S k)) s)
      with (s' ← iteration len n op_highest op_lowest s;
            loop len n op_highest op_lowest (S k) s').
    cbn [loop]. destruct (iteration _ _ _ _ s) as [s1|]; [|done].
    cbn. apply IH.
Qed.

(** Invariants of the loop: [I j] holds after [j] iterations. *)
Lemma loop_partial (I : nat → state D → Prop) :
  (∀ j s s', I j s → iteration len n op_highest op_lowest s = Some s' →
             I (S j) s') →
  ∀ k s s', I O s → loop len n op_highest op_lowest k s = Some s' → I k s'.
Proof.
  intros Hstep k. induction k as [|k IH]; intros s s' H0 Hloop.
  - cbn in Hloop. by inversion Hloop; subst.
  - rewrite loop_snoc in Hloop.
    destruct (loop _ _ _ _ k s) as [s1|] eqn:Hk; [|done].
    cbn in Hloop. eapply Hstep; [|done]. by eapply IH.
Qed.

Lemma loop_total (I : nat → state D → Prop) k :
  (∀ j s, (j < k)%nat → I j s →
          ∃ s', iteration len n op_highest op_lowest s = Some s' ∧ I (S j) s') →
  ∀ s, I O s → ∃ s', loop len n op_highest op_lowest k s = Some s' ∧ I k s'.
Proof.
  induction k as [|k IH]; intros Hstep s H0.
  - exists s. done.
  - destruct (IH (λ j t Hj, Hstep j t (Nat.lt_lt_succ_r _ _ Hj)) s H0)
      as (s1 & Hk & H1).
    destruct (Hstep k s1 (Nat.lt_succ_diag_r k) H1) as (s' & Hit & HS).
    exists s'. rewrite loop_snoc, Hk. done.
Qed.

End Iteration.

(** ** Ring navigation: inverses *)

(** C4, as amended.  For every ring size [n] with [0 < n <= RING_MAX]
    (2^30) and every position [i] in [[0, n)], [inc_ring] and [dec_ring]
    are mutual inverses: retreating after an advance and advancing after
    a retreat both give [i] back. *)
Theorem ring_inverses n i :
  0 < n <= RING_MAX → 0 <= i < n →
  dec_ring (inc_ring i n) n = i ∧ inc_ring (dec_ring i n) n = i.
Proof.
  intros [Hn0 Hn] Hi.
  pose proof (RING_MAX_INT_MAX n Hn) as Hn'.
  pose proof (inc_ring_range i n Hi Hn') as Hinc.
  pose proof (dec_ring_range i n Hi Hn) as Hdec.
  split.
  - rewrite dec_ring_spec by done. rewrite inc_ring_spec in * by done.
    repeat case_decide; lia.
  - rewrite inc_ring_spec by done. rewrite dec_ring_spec in * by done.
    repeat case_decide; lia.
Qed.

Lemma ring_inverses_witness :
  0 < 32 <= RING_MAX ∧ 0 <= 31 < 32
  ∧ dec_ring (inc_ring 31 32) 32 = 31 ∧ inc_ring (dec_ring 31 32) 32 = 31.
Proof.
  assert (0 < 32 <= RING_MAX) as Hn by (unfold RING_MAX; lia).
  assert (0 <= 31 < 32) as Hi by lia.
  split; [exact Hn|]. split; [exact Hi|].
  exact (ring_inverses 32 31 Hn Hi).
Defined.

(** C4 as stated fails for a ring of 2^30 + 1 slots, a size an [int]
    holds: at the top position [i + n] exceeds [INT_MAX], and [dec_ring]
    returns a negative position. *)
Lemma ring_inverses_beyond_RING_MAX :
  0 < 2 ^ 30 + 1 <= INT_MAX
  ∧ 0 <= 2 ^ 30 < 2 ^ 30 + 1
  ∧ dec_ring (2 ^ 30) (2 ^ 30 + 1) = - 2 ^ 31
  ∧ inc_ring (dec_ring (2 ^ 30) (2 ^ 30 + 1)) (2 ^ 30 + 1) ≠ 2 ^ 30
  ∧ dec_ring (inc_ring (2 ^ 30 - 1) (2 ^ 30 + 1)) (2 ^ 30 + 1) ≠ 2 ^ 30 - 1.
Proof.
  split; [unfold INT_MAX; lia|]. split; [lia|].
  split; [by vm_compute|]. split; by vm_compute.
Qed.

(** ** Seeding: the slots are in range *)

Lemma reduce_diverges index : 0 <= index → reduce index 0 = None.
Proof. intros Hi. unfold reduce. by apply reduce_loop_diverges. Qed.

(** C5, as amended.  After seeding a ring of [n > 0] slots with a
    buffer length [len > 1], the ring has its [n] slots and every one of
    them holds a value in [[0, len)]. *)
Theorem seeded_slots_in_range n len :
  0 < n → 1 < len →
  ∃ buf, seed n len = Some buf
    ∧ Z.of_nat (length buf) = n
    ∧ Forall (λ v, 0 <= v < len) buf.
Proof.
  intros Hn Hlen.
  destruct (seed_spec n len) as (buf & Hseed & Hl & _); [lia|].
  exists buf. split; [done|]. split; [lia|].
  by apply (seed_range n).
Qed.

Lemma seeded_slots_in_range_witness :
  0 < 5 ∧ 1 < 2
  ∧ ∃ buf, seed 5 2 = Some buf
      ∧ Z.of_nat (length buf) = 5
      ∧ Forall (λ v, 0 <= v < 2) buf.
Proof.
  assert (0 < 5) as Hn by lia.
  assert (1 < 2) as Hlen by lia.
  split; [exact Hn|]. split; [exact Hlen|].
  exact (seeded_slots_in_range 5 2 Hn Hlen).
Defined.

(** C5 as stated fails for a buffer of length 1: the first slot is
    written with the initial [index = 1] before any reduction, and 1 is
    not below the length.  (For a length of 0 the seeding never ends.) *)
Lemma seeded_slot_outside_length_1 :
  seed 1 1 = Some [1]
  ∧ seed 3 1 = Some [1; 0; 0]
  ∧ ¬ Forall (λ v, 0 <= v < 1) [1]
  ∧ seed 1 0 = None.
Proof.
  split; [reflexivity|]. split; [reflexivity|]. split; [|reflexivity].
  intros H. apply Forall_inv in H. lia.
Qed.

(** ** The reduction in the main loop *)

(** C9.  With [len > 1], [n > 0] and every ring slot in [[0, len)], the
    sum of the two newest slots, exact or as the [uint64_t] the code
    computes, is below [2 * len]; the loop on the slot ends, whatever
    the number of tests it is allowed beyond two, after at most one
    subtraction, and leaves the [uint64_t] sum modulo [len] in the slot.
    (Up to [len = 2^63] the [uint64_t] sum is the exact sum.) *)
Theorem reduction_at_most_once len n (buf : list Z) i_buf a b :
  1 < len → 0 < n →
  Forall (λ v, 0 <= v < len) buf →
  0 <= i_buf < Z.of_nat (length buf) →
  load buf (dec_ring i_buf n) = Some a →
  load buf (dec_ring (dec_ring i_buf n) n) = Some b →
  let s := u64 (a + b) in
  a + b < 2 * len
  ∧ s < 2 * len
  ∧ (len <= 2 ^ 63 → s = a + b)
  ∧ ∃ c, (c <= 1)%nat
      ∧ reduce s len = Some (s mod len, c)
      ∧ ∀ fuel, (2 <= fuel)%nat →
          reduce_slot fuel (<[Z.to_nat i_buf := s]> buf) i_buf len =
            Some (<[Z.to_nat i_buf := s mod len]> buf, c).
Proof.
  intros Hlen Hn Hbuf Hi Ha Hb s.
  assert (0 <= a < len) as Hra.
  { apply load_Some in Ha as [_ Ha].
    exact (Forall_lookup_1 _ _ _ _ Hbuf Ha). }
  assert (0 <= b < len) as Hrb.
  { apply load_Some in Hb as [_ Hb].
    exact (Forall_lookup_1 _ _ _ _ Hbuf Hb). }
  pose proof (u64_range (a + b)) as Hu.
  pose proof (u64_le (a + b)) as Hle.
  assert (s < 2 * len) as Hs by (subst s; lia).
  assert (0 <= s / len <= 1) as Hq.
  { split; [apply Z.div_pos; subst s; lia|].
    assert (s / len < 2); [|lia].
    apply Z.div_lt_upper_bound; lia. }
  split; [lia|]. split; [done|]. split.
  { intros H63. subst s. apply u64_id. lia. }
  exists (Z.to_nat (s / len)). split; [lia|]. split.
  { apply reduce_spec; [lia|done]. }
  intros fuel Hfuel.
  rewrite (reduce_slot_loop _ _ _ _ s) by by apply load_store_eq.
  rewrite reduce_loop_spec by (done || lia). simpl_bind.
  by rewrite list_insert_insert_eq.
Qed.

Lemma reduction_at_most_once_witness :
  let buf := [3; 5; 8] in
  1 < 10 ∧ 0 < 3
  ∧ Forall (λ v, 0 <= v < 10) buf
  ∧ 0 <= 0 < Z.of_nat (length buf)
  ∧ load buf (dec_ring 0 3) = Some 8
  ∧ load buf (dec_ring (dec_ring 0 3) 3) = Some 5
  ∧ (8 + 5 < 2 * 10
     ∧ u64 (8 + 5) < 2 * 10
     ∧ (10 <= 2 ^ 63 → u64 (8 + 5) = 8 + 5)
     ∧ ∃ c, (c <= 1)%nat
         ∧ reduce (u64 (8 + 5)) 10 = Some (u64 (8 + 5) mod 10, c)
         ∧ ∀ fuel, (2 <= fuel)%nat →
             reduce_slot fuel (<[Z.to_nat 0 := u64 (8 + 5)]> buf) 0 10 =
               Some (<[Z.to_nat 0 := u64 (8 + 5) mod 10]> buf, c)).
Proof.
  intros buf.
  assert (1 < 10) as Hlen by lia.
  assert (0 < 3) as Hn by lia.
  assert (Forall (λ v, 0 <= v < 10) buf) as Hbuf
    by (repeat constructor; lia).
  assert (0 <= 0 < Z.of_nat (length buf)) as Hi by (simpl; lia).
  assert (load buf (dec_ring 0 3) = Some 8) as Ha by reflexivity.
  assert (load buf (dec_ring (dec_ring 0 3) 3) = Some 5) as Hb by reflexivity.
  do 6 (split; [assumption|]).
  exact (reduction_at_most_once 10 3 buf 0 8 5 Hlen Hn Hbuf Hi Ha Hb).
Defined.

(** ** The contract of one iteration *)

(** C3.  One iteration, on a state whose ring reads are inside the ring
    ([cur] at [i_buf], [a] one position back, [b] two positions back):
    [op_lowest] is called first, with the old value [cur] of the slot at
    [i_buf]; the new value is the sum [a + b] reduced into [[0, len)];
    it is stored in the slot at [i_buf], every other slot being left as
    it was; [op_highest] is called next, on the data [op_lowest] left,
    with the value just stored; and [i_buf] moves on by [inc_ring]. *)
Theorem iteration_contract {D : Type} len n (op_highest op_lowest : op_t D)
    d d1 d2 tr (buf : list Z) i_buf cur a b :
  0 < len →
  load buf i_buf = Some cur →
  load buf (dec_ring i_buf n) = Some a →
  load buf (dec_ring (dec_ring i_buf n) n) = Some b →
  op_lowest d len cur = Some d1 →
  op_highest d1 len (u64 (a + b) mod len) = Some d2 →
  let v := u64 (a + b) mod len in
  let buf' := <[Z.to_nat i_buf := v]> buf in
  0 <= v < len
  ∧ load buf' i_buf = Some v
  ∧ (∀ j, 0 <= j → j ≠ i_buf → load buf' j = load buf j)
  ∧ iteration len n op_highest op_lowest (State d buf i_buf) =
      Some (State d2 buf' (inc_ring i_buf n))
  ∧ iteration len n (traced Highest op_highest) (traced Lowest op_lowest)
        (State (d, tr) buf i_buf) =
      Some (State (d2, tr ++ [Lowest cur; Highest v]) buf' (inc_ring i_buf n)).
Proof.
  intros Hlen Hcur Ha Hb Hol Hoh v buf'. subst v buf'.
  pose proof (load_lt _ _ _ Hcur) as Hi.
  split; [apply Z.mod_pos_bound; lia|].
  split; [by apply load_store_eq|].
  split; [intros j Hj Hne; apply load_store_ne; lia|].
  split.
  - rewrite (iteration_unfold _ _ _ _ _ _ _ cur a b) by done.
    rewrite Hol. simpl_bind. rewrite Hoh. simpl_bind. reflexivity.
  - rewrite (iteration_unfold _ _ _ _ _ _ _ cur a b) by done.
    unfold traced at 2. cbn [fst snd]. rewrite Hol. simpl_bind.
    unfold traced. cbn [fst snd]. rewrite Hoh. simpl_bind.
    by rewrite <- app_assoc.
Qed.

Lemma iteration_contract_witness :
  let buf := [3; 5; 8] in
  let d := Mem [0; 0; 0; 1; 0; 0; 0; 0; 0; 0] [] in
  let d1 := Mem [0; 0; 0; 2; 0; 0; 0; 0; 0; 0] [] in
  let d2 := Mem [0; 0; 0; 2; 0; 0; 0; 0; 0; 0] [3] in
  0 < 10
  ∧ load buf 0 = Some 3
  ∧ load buf (dec_ring 0 3) = Some 8
  ∧ load buf (dec_ring (dec_ring 0 3) 3) = Some 5
  ∧ increment d 10 3 = Some d1
  ∧ prefetch d1 10 (u64 (8 + 5) mod 10) = Some d2
  ∧ iteration 10 3 (traced Highest prefetch) (traced Lowest increment)
        (State (d, []) buf 0) =
      Some (State (d2, [Lowest 3; Highest 3]) [3; 5; 8] 1).
Proof.
  intros buf d d1 d2.
  assert (0 < 10) as Hlen by lia.
  assert (load buf 0 = Some 3) as Hcur by reflexivity.
  assert (load buf (dec_ring 0 3) = Some 8) as Ha by reflexivity.
  assert (load buf (dec_ring (dec_ring 0 3) 3) = Some 5) as Hb by reflexivity.
  assert (increment d 10 3 = Some d1) as Hol by reflexivity.
  assert (prefetch d1 10 (u64 (8 + 5) mod 10) = Some d2) as Hoh by reflexivity.
  do 6 (split; [assumption|]).
  exact (proj2 (proj2 (proj2 (proj2
    (iteration_contract 10 3 prefetch increment d d1 d2 [] buf 0 3 8 5
       Hlen Hcur Ha Hb Hol Hoh))))).
Defined.

(** ** Two runs side by side *)

Section Simulation.
Context {D1 D2 : Type} (R : D1 → D2 → Prop).
Variables (len n : Z) (oh1 ol1 : op_t D1) (oh2 ol2 : op_t D2).
Hypothesis Hol : ∀ d1 d2 i, R d1 d2 → osim R (ol1 d1 len i) (ol2 d2 len i).
Hypothesis Hoh : ∀ d1 d2 i, R d1 d2 → osim R (oh1 d1 len i) (oh2 d2 len i).

(** The ring never depends on the data: two iterations from related
    states read, compute and store the same values. *)
Lemma iteration_sim s1 s2 :
  st_rel R s1 s2 →
  osim (st_rel R) (iteration len n oh1 ol1 s1) (iteration len n oh2 ol2 s2).
Proof.
  destruct s1 as [d1 buf i_buf], s2 as [d2 buf' i_buf'].
  intros (HR & Hbuf & Hi) s1' H1. cbn [st_data st_buf st_i_buf] in *.
  subst buf' i_buf'. unfold iteration in *.
  cbn [st_data st_buf st_i_buf] in *.
  destruct (load buf i_buf) as [cur|]; simpl_bind in H1; [|done].
  simpl_bind.
  destruct (ol1 d1 len cur) as [e1|] eqn:E1; simpl_bind in H1; [|done].
  destruct (Hol _ _ cur HR _ E1) as (e2 & E2 & HR1).
  rewrite E2. simpl_bind.
  destruct (load buf (dec_ring i_buf n)) as [a|]; simpl_bind in H1; [|done].
  simpl_bind.
  destruct (load buf (dec_ring (dec_ring i_buf n) n)) as [b|];
    simpl_bind in H1; [|done].
  simpl_bind.
  destruct (store buf i_buf (u64 (a + b))) as [buf1|];
    simpl_bind in H1; [|done].
  simpl_bind.
  destruct (reduce_slot (S (Z.to_nat (u64 (a + b) / len))) buf1 i_buf len)
    as [[buf2 c]|]; simpl_bind in H1; [|done].
  simpl_bind.
  destruct (load buf2 i_buf) as [v|]; simpl_bind in H1; [|done].
  simpl_bind.
  destruct (oh1 e1 len v) as [f1|] eqn:F1; simpl_bind in H1; [|done].
  destruct (Hoh _ _ v HR1 _ F1) as (f2 & F2 & HR2).
  rewrite F2. simpl_bind. inversion H1; subst s1'.
  eexists. split; [reflexivity|]. by repeat split.
Qed.

Lemma loop_sim k : ∀ s1 s2,
  st_rel R s1 s2 →
  osim (st_rel R) (loop len n oh1 ol1 k s1) (loop len n oh2 ol2 k s2).
Proof.
  induction k as [|k IH]; intros s1 s2 Hs s1' H1.
  - cbn [loop] in *. inversion H1; subst. by exists s2.
  - cbn [loop] in *.
    destruct (iteration len n oh1 ol1 s1) as [t1|] eqn:E1;
      simpl_bind in H1; [|done].
    destruct (iteration_sim s1 s2 Hs t1 E1) as (t2 & E2 & Ht).
    rewrite E2. simpl_bind. by apply (IH t1 t2).
Qed.

Lemma traverse_sim d1 d2 iters :
  R d1 d2 →
  osim (st_rel R) (traverse len n oh1 ol1 d1 iters)
                  (traverse len n oh2 ol2 d2 iters).
Proof.
  intros HR s1 H1. unfold traverse in *.
  destruct (seed n len) as [buf|]; simpl_bind in H1; [|done].
  simpl_bind. by apply (loop_sim _ (State d1 buf 0)).
Qed.

End Simulation.

(** The operations as the two benchmark runs pair them: whatever the
    lookahead operation, the counters it leaves are those it found. *)
Lemma increment_cells m1 m2 len i :
  cells m1 = cells m2 →
  osim (λ a b, cells a = cells b) (increment m1 len i) (increment m2 len i).
Proof.
  intros Hc e1 H1. unfold increment in *. rewrite <- Hc.
  destruct (load (cells m1) i) as [c|]; simpl_bind in H1; [|done].
  simpl_bind.
  destruct (store (cells m1) i (wrap_long (c + 1))) as [cs|];
    simpl_bind in H1; [|done].
  simpl_bind. inversion H1; subst. eexists. split; [reflexivity|]. done.
Qed.

Lemma prefetch_nop_cells m1 m2 len i :
  cells m1 = cells m2 →
  osim (λ a b, cells a = cells b) (prefetch m1 len i) (nop m2 len i).
Proof.
  intros Hc e1 H1. inversion H1; subst. exists m2. by split.
Qed.

Lemma nop_prefetch_cells m1 m2 len i :
  cells m1 = cells m2 →
  osim (λ a b, cells a = cells b) (nop m1 len i) (prefetch m2 len i).
Proof.
  intros Hc e1 H1. inversion H1; subst. eexists. split; [reflexivity|]. done.
Qed.

(** ** The indices handed to the operations *)

Lemma traced_inv {D : Type} (tag : Z → event) (op : op_t D) d len i d' :
  traced tag op d len i = Some d' →
  op d.1 len i = Some d'.1 ∧ d'.2 = d.2 ++ [tag i].
Proof.
  unfold traced. intros H.
  destruct (op d.1 len i) as [e|]; simpl_bind in H; [|done].
  inversion H; subst. done.
Qed.

Lemma load_in_range len (buf : list Z) i v :
  Forall (in_range len) buf → load buf i = Some v → in_range len v.
Proof.
  intros Hbuf Hv. apply load_Some in Hv as [_ Hv].
  exact (Forall_lookup_1 _ _ _ _ Hbuf Hv).
Qed.

(** Whatever the operations, a run that starts with a ring in range
    calls them with indices in range only, and keeps its ring in range. *)
Lemma traced_loop_in_range {D : Type} len n (oh ol : op_t D) k s s' :
  0 < len →
  Forall (in_range len) (st_buf s) →
  Forall (λ e, in_range len (ev_index e)) (st_data s).2 →
  loop len n (traced Highest oh) (traced Lowest ol) k s = Some s' →
  Forall (in_range len) (st_buf s')
  ∧ Forall (λ e, in_range len (ev_index e)) (st_data s').2.
Proof.
  intros Hlen Hbuf Htr Hloop.
  apply (loop_partial len n (traced Highest oh) (traced Lowest ol)
           (λ _ t, Forall (in_range len) (st_buf t)
                   ∧ Forall (λ e, in_range len (ev_index e)) (st_data t).2))
    with (k := k) (s := s); [|done|done].
  clear s s' Hbuf Htr Hloop. intros _ s s' [Hbuf Htr] Hit.
  apply iteration_inv in Hit as (cur & a & b & d1 & d2 & Hcur & Ha & Hb
                                 & Hol & Hoh & ->); [|done].
  apply traced_inv in Hol as [_ Hol]. apply traced_inv in Hoh as [_ Hoh].
  assert (in_range len (u64 (a + b) mod len)) as Hv
    by (apply Z.mod_pos_bound; lia).
  cbn [st_buf st_data]. split.
  - by apply Forall_insert.
  - rewrite Hoh, Hol. repeat (apply Forall_app; split); [done|..].
    + constructor; [|done]. cbn. by eapply load_in_range.
    + constructor; [|done]. done.
Qed.

(** A run on a ring of at most [RING_MAX] slots has a result when its
    operations have one on every index in range.  [I j] is what is known
    of the data after [j] iterations. *)
Lemma traverse_total {D : Type} (I : nat → D → Prop) len n (oh ol : op_t D)
    d iters :
  1 < len → 0 < n <= RING_MAX →
  (∀ j d cur, (j < Z.to_nat iters)%nat → I j d → in_range len cur →
     ∃ d1, ol d len cur = Some d1
       ∧ ∀ v, in_range len v → ∃ d2, oh d1 len v = Some d2 ∧ I (S j) d2) →
  I O d →
  ∃ s, traverse len n oh ol d iters = Some s ∧ I (Z.to_nat iters) (st_data s).
Proof.
  intros Hlen Hn Hops H0. unfold traverse.
  destruct (seed_spec n len) as (buf & Hseed & Hl & _); [lia|].
  pose proof (seed_range n len buf Hlen Hseed) as Hbuf.
  rewrite Hseed. simpl_bind.
  destruct (loop_total len n oh ol
              (λ j t, I j (st_data t)
                      ∧ Z.of_nat (length (st_buf t)) = n
                      ∧ 0 <= st_i_buf t < n
                      ∧ Forall (in_range len) (st_buf t))
              (Z.to_nat iters)) with (s := State d buf 0)
    as (s' & Hloop & HI & _).
  - clear d H0 buf Hseed Hl Hbuf.
    intros j [d buf i_buf] Hj (HI & Hl & Hi & Hbuf).
    cbn [st_data st_buf st_i_buf] in *.
    destruct (ring_reads n buf i_buf Hn Hl Hi) as (cur & a & b & Hcur & Ha & Hb).
    rewrite (iteration_unfold _ _ _ _ _ _ _ cur a b) by (done || lia).
    destruct (Hops j d cur Hj HI) as (d1 & Hol & Hoh).
    { by eapply load_in_range. }
    assert (in_range len (u64 (a + b) mod len)) as Hv
      by (apply Z.mod_pos_bound; lia).
    destruct (Hoh _ Hv) as (d2 & Hoh' & HI').
    rewrite Hol. simpl_bind. rewrite Hoh'. simpl_bind.
    eexists. split; [reflexivity|]. cbn [st_data st_buf st_i_buf].
    split; [done|]. split; [by rewrite length_insert|].
    split; [apply inc_ring_range; [done|apply RING_MAX_INT_MAX, Hn]|].
    by apply Forall_insert.
  - cbn [st_data st_buf st_i_buf]. split; [done|]. split; [lia|].
    split; [lia|done].
  - exists s'. done.
Qed.

(** A run with its calls recorded does to the data what the run
    without the record does, and records the calls of [calls]. *)
Lemma traced_erase {D : Type} len n (oh ol : op_t D) d tr iters s :
  traverse len n (traced Highest oh) (traced Lowest ol) (d, tr) iters = Some s →
  fibo_lookahead_foreach d len iters oh ol n = Some (st_data s).1.
Proof.
  intros Hs. unfold fibo_lookahead_foreach.
  destruct (traverse_sim (λ (p : D * list event) (e : D), p.1 = e) len n
              (traced Highest oh) (traced Lowest ol) oh ol) with
    (d1 := (d, tr)) (d2 := d) (iters := iters) (x := s)
    as (s2 & Hs2 & HR & _); [| |done|done|].
  - intros p e i <- p' Hp. apply traced_inv in Hp as [Hp _]. by exists p'.1.
  - intros p e i <- p' Hp. apply traced_inv in Hp as [Hp _]. by exists p'.1.
  - rewrite Hs2. cbn. by rewrite HR.
Qed.

Lemma traced_calls {D : Type} len n (oh ol : op_t D) d iters s :
  traverse len n (traced Highest oh) (traced Lowest ol) (d, []) iters = Some s →
  calls len iters n = Some (st_data s).2.
Proof.
  intros Hs. unfold calls, fibo_lookahead_foreach.
  destruct (traverse_sim (λ (p : D * list event) (q : unit * list event),
                            p.2 = q.2) len n
              (traced Highest oh) (traced Lowest ol)
              (traced Highest skip) (traced Lowest skip)) with
    (d1 := (d, @nil event)) (d2 := (tt, @nil event)) (iters := iters) (x := s)
    as (s2 & Hs2 & HR & _); [| |done|done|].
  - intros p q i Hpq p' Hp. apply traced_inv in Hp as [_ Hp].
    eexists. split; [reflexivity|]. cbn. by rewrite Hp, Hpq.
  - intros p q i Hpq p' Hp. apply traced_inv in Hp as [_ Hp].
    eexists. split; [reflexivity|]. cbn. by rewrite Hp, Hpq.
  - rewrite Hs2. cbn. by rewrite HR.
Qed.

(** C2, as amended.  For every buffer length [len > 1], whatever the
    lookahead depth, the iteration count and the two operations, every
    index the traversal hands to [op_lowest] and to [op_highest] is in
    [[0, len)]; and for a lookahead depth [0 < n <= RING_MAX] the
    traversal runs to its end. *)
Theorem calls_in_range len n iters :
  1 < len →
  (∀ (D : Type) (oh ol : op_t D) d s,
     traverse len n (traced Highest oh) (traced Lowest ol) (d, []) iters
       = Some s →
     calls len iters n = Some (st_data s).2
     ∧ Forall (λ e, 0 <= ev_index e < len) (st_data s).2)
  ∧ (0 < n <= RING_MAX → is_Some (calls len iters n)).
Proof.
  intros Hlen. split.
  - intros D oh ol d s Hs. split; [by eapply traced_calls|].
    unfold traverse in Hs.
    destruct (seed n len) as [buf|] eqn:Hseed; simpl_bind in Hs; [|done].
    apply traced_loop_in_range in Hs as [_ Htr];
      [done|lia|by apply (seed_range n)|by constructor].
  - intros Hn. unfold calls, fibo_lookahead_foreach.
    destruct (traverse_total (λ _ _, True) len n
                (traced Highest skip) (traced Lowest skip) (tt, [])
                iters Hlen Hn) as (s & Hs & _); [|done|].
    + intros j d cur _ _ _. eexists. split; [reflexivity|].
      intros v _. eexists. split; [reflexivity|done].
    + rewrite Hs. by eexists.
Qed.

Lemma calls_in_range_witness :
  1 < 10
  ∧ (∀ (D : Type) (oh ol : op_t D) d s,
       traverse 10 3 (traced Highest oh) (traced Lowest ol) (d, []) 5
         = Some s →
       calls 10 5 3 = Some (st_data s).2
       ∧ Forall (λ e, 0 <= ev_index e < 10) (st_data s).2)
  ∧ (0 < 3 <= RING_MAX → is_Some (calls 10 5 3)).
Proof.
  assert (1 < 10) as Hlen by lia.
  split; [exact Hlen|].
  exact (calls_in_range 10 3 5 Hlen).
Defined.

(** C2 as stated fails for a buffer of length 1: the first index handed
    to [op_lowest] is the seed 1, which is not below the length, and
    [increment] on it is an access past the end of the buffer. *)
Lemma call_outside_length_1 :
  calls 1 1 1 = Some [Lowest 1; Highest 0]
  ∧ ¬ Forall (λ e, 0 <= ev_index e < 1) [Lowest 1; Highest 0]
  ∧ fibo_lookahead_foreach (Mem [0] []) 1 1 nop increment 1 = None.
Proof.
  split; [by vm_compute|]. split; [|by vm_compute].
  intros H. apply Forall_inv in H. cbn in H. lia.
Qed.

(** ** The lookahead operation does not touch the counters *)

Lemma increment_total m len cur :
  Z.of_nat (length (cells m)) = len → in_range len cur →
  ∃ m', increment m len cur = Some m'
    ∧ Z.of_nat (length (cells m')) = len.
Proof.
  intros Hl Hcur. unfold in_range in Hcur. unfold increment.
  destruct (load_is_Some (cells m) cur) as [c Hc]; [lia|].
  rewrite Hc. simpl_bind. rewrite store_Some by lia. simpl_bind.
  eexists. split; [reflexivity|]. cbn [cells]. by rewrite length_insert.
Qed.

(** C1.  Two runs on the same length, iteration count and lookahead
    depth that start from the same counters, one with [prefetch] and one
    with [nop] as the lookahead operation, both with [increment] as the
    current operation, leave the same counters: the one has a result
    exactly when the other has, and the counters of the two results are
    equal.  On a buffer of [len > 1] counters and a ring of at most
    [RING_MAX] slots the runs do have a result. *)
Theorem prefetch_preserves_counters m1 m2 len iters n :
  cells m1 = cells m2 →
  cells <$> fibo_lookahead_foreach m1 len iters prefetch increment n =
  cells <$> fibo_lookahead_foreach m2 len iters nop increment n
  ∧ (1 < len → 0 < n <= RING_MAX → Z.of_nat (length (cells m2)) = len →
     is_Some (fibo_lookahead_foreach m2 len iters nop increment n)).
Proof.
  intros Hc. unfold fibo_lookahead_foreach. split.
  - pose proof (traverse_sim (λ a b, cells a = cells b) len n
                  prefetch increment nop increment
                  (λ d1 d2 i, increment_cells d1 d2 len i)
                  (λ d1 d2 i, prefetch_nop_cells d1 d2 len i)
                  m1 m2 iters Hc) as Hfwd.
    pose proof (traverse_sim (λ a b, cells a = cells b) len n
                  nop increment prefetch increment
                  (λ d1 d2 i, increment_cells d1 d2 len i)
                  (λ d1 d2 i, nop_prefetch_cells d1 d2 len i)
                  m2 m1 iters (eq_sym Hc)) as Hbwd.
    destruct (traverse len n prefetch increment m1 iters) as [s1|] eqn:E1.
    + destruct (Hfwd s1 eq_refl) as (s2 & E2 & HR & _). rewrite E2.
      cbn. by rewrite HR.
    + destruct (traverse len n nop increment m2 iters) as [s2|] eqn:E2;
        [|done].
      by destruct (Hbwd s2 eq_refl) as (s1 & E1' & _).
  - intros Hlen Hn Hl.
    destruct (traverse_total (λ _ m, Z.of_nat (length (cells m)) = len)
                len n nop increment m2 iters Hlen Hn) as (s & Hs & _);
      [|done|].
    + intros j m cur _ Hm Hcur.
      destruct (increment_total m len cur Hm Hcur) as (m' & Hm' & Hl').
      exists m'. split; [done|]. intros v _. by exists m'.
    + rewrite Hs. by eexists.
Qed.

Lemma prefetch_preserves_counters_witness :
  let m := Mem (replicate 10 0) [] in
  cells m = cells m
  ∧ cells <$> fibo_lookahead_foreach m 10 40 prefetch increment 3 =
    cells <$> fibo_lookahead_foreach m 10 40 nop increment 3
  ∧ cells <$> fibo_lookahead_foreach m 10 40 nop increment 3 =
    Some [2; 6; 2; 4; 3; 6; 2; 6; 4; 5].
Proof.
  intros m.
  assert (cells m = cells m) as Hc by reflexivity.
  split; [exact Hc|]. split.
  - exact (proj1 (prefetch_preserves_counters m m 10 40 3 Hc)).
  - vm_compute. reflexivity.
Defined.

(** ** Two concrete runs *)

(** C6.  With a buffer of length 10 and a lookahead depth of 3 the
    seeded ring is [1, 1, 2].  One iteration with [increment] as the
    current operation calls it once, on index 1, the value slot 0 held;
    slot 0 then holds [2 + 1 = 3], reached without a subtraction, which
    is what the lookahead operation receives; and [i_buf] is 1. *)
Theorem scenario_10_3 :
  seed 3 10 = Some [1; 1; 2]
  ∧ reduce (u64 (2 + 1)) 10 = Some (3, O)
  ∧ traverse 10 3 (traced Highest nop) (traced Lowest increment)
      (Mem (replicate 10 0) [], []) 1 =
    Some (State (Mem [0; 1; 0; 0; 0; 0; 0; 0; 0; 0] [],
                 [Lowest 1; Highest 3]) [3; 1; 2] 1)
  ∧ traverse 10 3 (traced Highest prefetch) (traced Lowest increment)
      (Mem (replicate 10 0) [], []) 1 =
    Some (State (Mem [0; 1; 0; 0; 0; 0; 0; 0; 0; 0] [3],
                 [Lowest 1; Highest 3]) [3; 1; 2] 1)
  ∧ fibo_lookahead_foreach (Mem (replicate 10 0) []) 10 1 nop increment 3 =
    Some (Mem [0; 1; 0; 0; 0; 0; 0; 0; 0; 0] []).
Proof. repeat split; vm_compute; reflexivity. Qed.

Lemma covers_spec len tr j :
  covers len tr = true → 0 <= j < Z.of_nat len → 0 < count_lowest j tr.
Proof.
  unfold covers. rewrite forallb_forall. intros Hall Hj.
  specialize (Hall (Z.to_nat j)). rewrite Z2Nat.id in Hall by lia.
  apply Z.ltb_lt, Hall, in_seq. lia.
Qed.

(** C7.  A run of 5000 iterations on an all-zero buffer of length 50
    with a lookahead depth of 4 and [increment] as the current operation
    selects every index in [[0, 50)] as the current index at least once:
    every counter of the final buffer is above 0. *)
Theorem coverage_50_5000_4 :
  ∃ m tr,
    fibo_lookahead_foreach (Mem (replicate 50 0) []) 50 5000 nop increment 4
      = Some m
    ∧ calls 50 5000 4 = Some tr
    ∧ length (cells m) = 50%nat
    ∧ Forall (λ c, 0 < c) (cells m)
    ∧ ∀ j, 0 <= j < 50 → 0 < count_lowest j tr.
Proof.
  assert ((λ m, (length (cells m), forallb (Z.ltb 0) (cells m))) <$>
            fibo_lookahead_foreach (Mem (replicate 50 0) []) 50 5000
              nop increment 4 = Some (50%nat, true)) as Hm
    by (vm_compute; reflexivity).
  assert (covers 50 <$> calls 50 5000 4 = Some true) as Htr
    by (vm_compute; reflexivity).
  apply fmap_Some in Hm as (m & Hm & Heq).
  apply fmap_Some in Htr as (tr & Htr & Hcov).
  injection Heq as Hl Hpos.
  exists m, tr. split; [exact Hm|]. split; [exact Htr|].
  split; [by symmetry|]. split.
  - apply Forall_forall. intros c Hc. symmetry in Hpos.
    rewrite forallb_forall in Hpos. apply Z.ltb_lt, Hpos.
    by apply list_elem_of_In.
  - intros j Hj. by apply (covers_spec 50).
Qed.

(** ** The effect of a run on the counters *)

Lemma count_lowest_app j t1 t2 :
  count_lowest j (t1 ++ t2) = count_lowest j t1 + count_lowest j t2.
Proof.
  induction t1 as [|[i|i] t1 IH]; cbn [app count_lowest]; lia.
Qed.

Lemma zsum_insert (l : list Z) i x y :
  l !! i = Some x → zsum (<[i := y]> l) = zsum l - x + y.
Proof.
  revert i. induction l as [|z l IH]; intros [|i] Hi; try done.
  - cbn in Hi. inversion Hi; subst. cbn. lia.
  - cbn in Hi. specialize (IH _ Hi).
    change (zsum (<[S i := y]> (z :: l))) with (z + zsum (<[i := y]> l)).
    change (zsum (z :: l)) with (z + zsum l). lia.
Qed.

(** Past [RING_MAX] the first iteration already reads outside the ring:
    two positions back from 0 is where [dec_ring] overflows. *)
Lemma traverse_beyond_RING_MAX {D : Type} len n (oh ol : op_t D) d iters :
  RING_MAX < n <= INT_MAX → 0 < iters →
  traverse len n oh ol d iters = None.
Proof.
  intros Hn Hiters. unfold traverse.
  destruct (seed n len) as [buf|]; simpl_bind; [|done].
  destruct (Z.to_nat iters) as [|k] eqn:Hk; [lia|].
  cbn [loop]. unfold iteration at 1. cbn [st_data st_buf st_i_buf].
  destruct (load buf 0) as [cur|]; simpl_bind; [|done].
  destruct (ol d len cur) as [d1|]; simpl_bind; [|done].
  destruct (load buf (dec_ring 0 n)) as [a|]; simpl_bind; [|done].
  assert (dec_ring 0 n = n - 1) as ->.
  { unfold RING_MAX, INT_MAX in Hn. unfold dec_ring. cbv zeta.
    rewrite (wrap_int_id (0 + n)) by lia.
    rewrite (wrap_int_id (0 + n - 1)) by lia.
    destruct (Z.geb_spec (0 + n - 1) n); lia. }
  assert (dec_ring (n - 1) n < 0) as Hneg.
  { apply dec_ring_overflow; [done|]. unfold RING_MAX, INT_MAX in *. lia. }
  assert (load buf (dec_ring (n - 1) n) = None) as ->.
  { unfold load. by destruct (Z.leb_spec 0 (dec_ring (n - 1) n)); [lia|]. }
  simpl_bind. reflexivity.
Qed.

Lemma increment_counted cs iters len j p cur :
  Z.of_nat (length cs) = len →
  Forall (λ c, LONG_MIN <= c ∧ c + iters <= LONG_MAX) cs →
  (j < Z.to_nat iters)%nat →
  counted cs j p → in_range len cur →
  ∃ p1, traced Lowest increment p len cur = Some p1
    ∧ hints p1.1 = hints p.1
    ∧ ∀ v p2, cells p2.1 = cells p1.1 → p2.2 = p1.2 ++ [Highest v] →
              counted cs (S j) p2.
Proof.
  intros Hlen Hcs Hj (Hl & Hcells & Hsum & Hcount) [Hc0 Hc1].
  destruct p as [[cells0 hints0] tr]. cbn [fst snd cells hints] in *.
  destruct (lookup_lt_is_Some_2 cs (Z.to_nat cur)) as [c Hc]; [lia|].
  pose proof (Hcells _ _ Hc) as Hcur. rewrite Z2Nat.id in Hcur by lia.
  pose proof (Forall_lookup_1 _ _ _ _ Hcs Hc) as [Hmin Hmax].
  pose proof (Hcount cur) as Hcnt.
  assert (load cells0 cur = Some (c + count_lowest cur tr)) as Hload
    by (by apply load_Some).
  unfold traced, increment. cbn [fst snd cells hints].
  rewrite Hload. simpl_bind. rewrite store_Some by lia. simpl_bind.
  rewrite wrap_long_id by lia.
  eexists. split; [reflexivity|]. cbn [fst snd cells hints].
  split; [done|]. intros v [[cells2 hints2] tr2]. cbn [fst snd cells hints].
  intros -> ->. unfold counted. cbn [fst snd cells hints].
  split; [by rewrite length_insert|]. split; [|split].
  - intros k c' Hk. rewrite !count_lowest_app. cbn [count_lowest].
    destruct (decide (k = Z.to_nat cur)) as [->|Hne].
    + rewrite list_lookup_insert_eq by lia.
      rewrite Z2Nat.id by lia. rewrite Z.eqb_refl.
      rewrite Hc in Hk. inversion Hk; subst. f_equal. lia.
    + rewrite list_lookup_insert_ne by done.
      destruct (Z.eqb_spec cur (Z.of_nat k)); [lia|].
      rewrite (Hcells _ _ Hk). f_equal. lia.
  - rewrite (zsum_insert _ _ (c + count_lowest cur tr));
      [lia|by apply load_Some in Hload as [_ ?]].
  - intros k. rewrite !count_lowest_app. cbn [count_lowest].
    specialize (Hcount k). destruct (cur =? k); lia.
Qed.

(** C10, as amended.  For every [len > 1], [0 < n <= RING_MAX],
    [iters >= 0] and every buffer of [len] counters none of which is
    within [iters] of [LONG_MAX], the run with [increment] as the current
    operation and [nop] or [prefetch] as the lookahead operation ends,
    and changes the buffer only by adding one to the counter at the
    current index, once per iteration: each counter has grown by the
    number of times its index was the current one, a counter whose index
    never was is as it was, and the counters sum to [iters] more. *)
Theorem increment_effect cs h len iters n (oh : op_t mem) :
  1 < len → 0 < n <= RING_MAX → 0 <= iters →
  Z.of_nat (length cs) = len →
  Forall (λ c, LONG_MIN <= c ∧ c + iters <= LONG_MAX) cs →
  oh = nop ∨ oh = prefetch →
  ∃ m tr,
    fibo_lookahead_foreach (Mem cs h) len iters oh increment n = Some m
    ∧ calls len iters n = Some tr
    ∧ length (cells m) = length cs
    ∧ (∀ j c, cs !! j = Some c →
              cells m !! j = Some (c + count_lowest (Z.of_nat j) tr))
    ∧ (∀ j, count_lowest (Z.of_nat j) tr = 0 → cells m !! j = cs !! j)
    ∧ zsum (cells m) = zsum cs + iters.
Proof.
  intros Hlen Hn Hiters Hl Hcs Hoh.
  destruct (traverse_total (counted cs) len n
              (traced Highest oh) (traced Lowest increment)
              (Mem cs h, []) iters Hlen Hn) as (s & Hs & HI).
  - intros j p cur Hj Hp Hcur.
    destruct (increment_counted cs iters len j p cur Hl Hcs Hj Hp Hcur)
      as (p1 & Hp1 & _ & Hnext).
    exists p1. split; [done|]. intros v _.
    destruct Hoh as [-> | ->].
    + eexists. split; [reflexivity|]. by apply (Hnext v).
    + eexists. split; [reflexivity|]. by apply (Hnext v).
  - unfold counted. cbn [fst snd cells]. repeat split; try done.
    + intros k c Hk. rewrite Hk. cbn [count_lowest]. f_equal. lia.
    + lia.
  - destruct HI as (Hlen' & Hcells & Hsum & _).
    exists (st_data s).1, (st_data s).2.
    split; [by eapply traced_erase|]. split; [by eapply traced_calls|].
    split; [done|]. split; [done|]. split; [|lia].
    intros j Hj. destruct (cs !! j) as [c|] eqn:Hc.
    + rewrite (Hcells _ _ Hc), Hj. f_equal. lia.
    + apply lookup_ge_None. apply lookup_ge_None in Hc. lia.
Qed.

Lemma increment_effect_witness :
  let cs := [7; 0; 0; 0; 0; 0; 0; 0; 0; -2] in
  1 < 10 ∧ 0 < 3 <= RING_MAX ∧ 0 <= 5
  ∧ Z.of_nat (length cs) = 10
  ∧ Forall (λ c, LONG_MIN <= c ∧ c + 5 <= LONG_MAX) cs
  ∧ (prefetch = nop ∨ prefetch = prefetch)
  ∧ ∃ m tr,
      fibo_lookahead_foreach (Mem cs []) 10 5 prefetch increment 3 = Some m
      ∧ calls 10 5 3 = Some tr
      ∧ length (cells m) = length cs
      ∧ (∀ j c, cs !! j = Some c →
                cells m !! j = Some (c + count_lowest (Z.of_nat j) tr))
      ∧ (∀ j, count_lowest (Z.of_nat j) tr = 0 → cells m !! j = cs !! j)
      ∧ zsum (cells m) = zsum cs + 5.
Proof.
  intros cs.
  assert (1 < 10) as Hlen by lia.
  assert (0 < 3 <= RING_MAX) as Hn by (unfold RING_MAX; lia).
  assert (0 <= 5) as Hiters by lia.
  assert (Z.of_nat (length cs) = 10) as Hl by reflexivity.
  assert (Forall (λ c, LONG_MIN <= c ∧ c + 5 <= LONG_MAX) cs) as Hcs
    by (unfold LONG_MIN, LONG_MAX; repeat constructor; lia).
  assert (prefetch = nop ∨ prefetch = prefetch) as Hoh by (right; reflexivity).
  split; [exact Hlen|]. split; [exact Hn|]. split; [exact Hiters|].
  split; [exact Hl|]. split; [exact Hcs|]. split; [exact Hoh|].
  exact (increment_effect cs [] 10 5 3 prefetch Hlen Hn Hiters Hl Hcs Hoh).
Defined.

(** C10 as stated fails on a buffer that holds [LONG_MAX] at the first
    current index: the counter wraps to [LONG_MIN], and the sum falls.
    It fails as well for a lookahead depth of 2^30 + 1, where the first
    iteration reads outside the ring and the run has no result. *)
Lemma increment_effect_limits :
  fibo_lookahead_foreach (Mem [0; LONG_MAX] []) 2 1 nop increment 1 =
    Some (Mem [0; LONG_MIN] [])
  ∧ zsum [0; LONG_MIN] ≠ zsum [0; LONG_MAX] + 1
  ∧ fibo_lookahead_foreach (Mem [0; 0] []) 2 1 nop increment (2 ^ 30 + 1) =
    None.
Proof.
  split; [by vm_compute|]. split; [by vm_compute|].
  unfold fibo_lookahead_foreach.
  rewrite traverse_beyond_RING_MAX; [done| |lia].
  unfold RING_MAX, INT_MAX. lia.
Qed.

(** ** The ring holds consecutive terms of the generated sequence *)

Lemma fib_S_S j : fib (S (S j)) = fib (S j) + fib j.
Proof. unfold fib. cbn [fib_pair]. destruct (fib_pair j) as [a b]. cbn. lia. Qed.

Lemma fib_nonneg j : 0 <= fib j ∧ 0 <= fib (S j).
Proof.
  induction j as [|j [IH0 IH1]]; [by vm_compute|].
  split; [done|]. rewrite fib_S_S. lia.
Qed.

Lemma fib_mono i j : (i <= j)%nat → fib i <= fib j.
Proof.
  induction 1 as [|j Hle IH]; [lia|].
  etrans; [exact IH|]. destruct j as [|j]; [by vm_compute|].
  rewrite fib_S_S. pose proof (fib_nonneg j). lia.
Qed.

(** As long as the Fibonacci numbers stay below the length, the
    generated sequence is the Fibonacci sequence from its first term. *)
Lemma gen_fib len j :
  len <= 2 ^ 64 → fib (S j) < len → gen len j = (fib (S j), fib j).
Proof.
  intros Hlen. induction j as [|j IH]; intros Hj; [done|].
  pose proof (fib_nonneg j) as [H0 H1].
  rewrite fib_S_S in Hj.
  cbn [gen]. rewrite IH by lia. rewrite fib_S_S.
  rewrite u64_id by lia. rewrite Z.mod_small by lia. done.
Qed.

Lemma term_fib len j :
  len <= 2 ^ 64 → fib (S j) < len → term len j = fib (S j).
Proof. intros Hlen Hj. unfold term. by rewrite gen_fib. Qed.

(** Ring positions as remainders. *)
Lemma inc_ring_mod k n :
  0 < n <= INT_MAX → inc_ring (k mod n) n = (k + 1) mod n.
Proof.
  intros Hn. pose proof (Z.mod_pos_bound k n ltac:(lia)) as Hk.
  rewrite inc_ring_spec by lia.
  rewrite <- (Zplus_mod_idemp_l k 1 n). case_decide as Hc.
  - rewrite Hc. apply eq_sym, Z_mod_same_full.
  - rewrite (Z.mod_small (k mod n + 1)) by lia. done.
Qed.

Lemma dec_ring_mod k n :
  0 < n <= RING_MAX → dec_ring (k mod n) n = (k + (n - 1)) mod n.
Proof.
  intros Hn. pose proof (Z.mod_pos_bound k n ltac:(lia)) as Hk.
  rewrite dec_ring_spec by lia.
  rewrite <- (Zplus_mod_idemp_l k (n - 1) n). case_decide as Hc.
  - rewrite Hc. rewrite (Z.mod_small (0 + (n - 1))) by lia. lia.
  - replace (k mod n + (n - 1)) with (k mod n - 1 + 1 * n) by lia.
    rewrite Z_mod_plus_full. rewrite (Z.mod_small (k mod n - 1)) by lia. done.
Qed.

Lemma mod_add_ne k j n : 0 < j < n → (k + j) mod n ≠ k mod n.
Proof.
  intros Hj Heq.
  assert ((k + j - k) mod n = 0) as H0.
  { rewrite Zminus_mod, Heq, Z.sub_diag. apply Z.mod_0_l. lia. }
  replace (k + j - k) with j in H0 by lia.
  rewrite Z.mod_small in H0; lia.
Qed.

Lemma seed_ring_at {D : Type} len n (d : D) buf :
  0 < len → 0 < n → seed n len = Some buf → ring_at len n O (State d buf 0).
Proof.
  intros Hlen Hn Hseed.
  destruct (seed_spec n len Hlen) as (buf' & Hs & Hl & Hm).
  rewrite Hseed in Hs. inversion Hs; subst buf'.
  unfold ring_at. cbn [st_buf st_i_buf].
  split; [lia|]. split; [by rewrite Z.mod_0_l by lia|].
  intros j Hj. change (Z.of_nat 0) with 0. rewrite Z.add_0_l.
  rewrite Z.mod_small by done. apply load_Some. split; [lia|].
  apply Hm. lia.
Qed.

(** An iteration moves the window of terms held by the ring on by one:
    the term that was at [i_buf] leaves, the term [k + n] enters. *)
Lemma iteration_ring_at {D : Type} len n (oh ol : op_t D) k s s' :
  0 < len → 2 <= n <= RING_MAX →
  ring_at len n k s →
  iteration len n oh ol s = Some s' →
  ring_at len n (S k) s'.
Proof.
  intros Hlen Hn (Hl & Hi & Hterms) Hit.
  apply iteration_inv in Hit as (cur & a & b & d1 & d2 & Hcur & Ha & Hb
                                 & _ & _ & ->); [|done].
  assert (0 < n <= RING_MAX) as Hn' by lia.
  assert (0 < n <= INT_MAX) as Hn'' by (split; [lia|apply RING_MAX_INT_MAX; lia]).
  pose proof (Z.mod_pos_bound (Z.of_nat k) n ltac:(lia)) as Hk.
  rewrite Hi in Ha, Hb.
  rewrite dec_ring_mod in Ha, Hb by done.
  rewrite dec_ring_mod in Hb by done.
  replace (Z.of_nat k + (n - 1) + (n - 1))
    with (Z.of_nat k + (n - 2) + 1 * n) in Hb by lia.
  rewrite Z_mod_plus_full in Hb.
  rewrite Hterms in Ha, Hb by lia.
  injection Ha as Ha'. injection Hb as Hb'.
  assert (u64 (a + b) mod len = term len (k + Z.to_nat n)) as Hv.
  { replace (k + Z.to_nat n)%nat with (S (S (k + Z.to_nat (n - 2))))%nat by lia.
    rewrite term_S_S.
    replace (S (k + Z.to_nat (n - 2)))%nat with (k + Z.to_nat (n - 1))%nat by lia.
    by rewrite Ha', Hb'. }
  unfold ring_at. cbn [st_buf st_i_buf]. rewrite Hi.
  split; [by rewrite length_insert|].
  split; [rewrite inc_ring_mod by done; f_equal; lia|].
  intros j Hj. destruct (decide (j = n - 1)) as [->|Hne].
  - replace (Z.of_nat (S k) + (n - 1)) with (Z.of_nat k + 1 * n) by lia.
    rewrite Z_mod_plus_full. rewrite load_store_eq by lia.
    rewrite Hv. do 2 f_equal. lia.
  - replace (Z.of_nat (S k) + j) with (Z.of_nat k + (j + 1)) by lia.
    pose proof (Z.mod_pos_bound (Z.of_nat k + (j + 1)) n ltac:(lia)).
    rewrite load_store_ne; [|lia|lia|].
    + rewrite Hterms by lia. do 2 f_equal. lia.
    + apply not_eq_sym, mod_add_ne. lia.
Qed.

(** A ring of one slot keeps its one slot. *)
Lemma iteration_ring_shape {D : Type} len n (oh ol : op_t D) s s' :
  0 < len → 0 < n <= RING_MAX →
  Z.of_nat (length (st_buf s)) = n ∧ 0 <= st_i_buf s < n →
  iteration len n oh ol s = Some s' →
  Z.of_nat (length (st_buf s')) = n ∧ 0 <= st_i_buf s' < n.
Proof.
  intros Hlen Hn [Hl Hi] Hit.
  apply iteration_inv in Hit as (cur & a & b & d1 & d2 & _ & _ & _
                                 & _ & _ & ->); [|done].
  cbn [st_buf st_i_buf]. split; [by rewrite length_insert|].
  apply inc_ring_range; [done|apply RING_MAX_INT_MAX, Hn].
Qed.

Lemma traverse_start {D : Type} len n (oh ol : op_t D) d iters s :
  iters <= 0 → traverse len n oh ol d iters = Some s →
  ∃ buf, seed n len = Some buf ∧ s = State d buf 0.
Proof.
  intros Hiters Hs. unfold traverse in Hs.
  destruct (seed n len) as [buf|]; simpl_bind in Hs; [|done].
  replace (Z.to_nat iters) with O in Hs by lia. cbn [loop] in Hs.
  inversion Hs; subst. by exists buf.
Qed.

Lemma traverse_ring_at {D : Type} len n (oh ol : op_t D) d iters s :
  0 < len → 2 <= n <= INT_MAX →
  traverse len n oh ol d iters = Some s →
  ring_at len n (Z.to_nat iters) s.
Proof.
  intros Hlen Hn Hs.
  destruct (decide (n <= RING_MAX)) as [Hle|Hgt].
  - unfold traverse in Hs.
    destruct (seed n len) as [buf|] eqn:Hseed; simpl_bind in Hs; [|done].
    apply (loop_partial len n oh ol (ring_at len n))
      with (k := Z.to_nat iters) (s := State d buf 0); [| |done].
    + intros j t t'. apply iteration_ring_at; [done|lia].
    + apply seed_ring_at; [done|lia|done].
  - destruct (decide (0 < iters)) as [Hpos|Hnpos].
    + rewrite traverse_beyond_RING_MAX in Hs; [done|lia|done].
    + apply traverse_start in Hs as (buf & Hseed & ->); [|lia].
      replace (Z.to_nat iters) with O by lia.
      apply seed_ring_at; [done|lia|done].
Qed.

(** Every value in the ring is one of the [n] terms of the window. *)
Lemma ring_at_values {D : Type} len n k (s : state D) m v :
  0 < n → ring_at len n k s → st_buf s !! m = Some v →
  ∃ j, (j < Z.to_nat n)%nat ∧ v = term len (k + j).
Proof.
  intros Hn (Hl & _ & Hterms) Hm.
  pose proof (lookup_lt_Some _ _ _ Hm) as Hlt.
  pose proof (Z.mod_pos_bound (Z.of_nat m - Z.of_nat k) n Hn) as Hj.
  specialize (Hterms _ Hj).
  rewrite Zplus_mod_idemp_r in Hterms.
  replace (Z.of_nat k + (Z.of_nat m - Z.of_nat k)) with (Z.of_nat m)
    in Hterms by lia.
  rewrite Z.mod_small in Hterms by lia.
  apply load_Some in Hterms as [_ Hterms]. rewrite Nat2Z.id in Hterms.
  rewrite Hm in Hterms. injection Hterms as ->.
  eexists. split; [|reflexivity]. lia.
Qed.

(** ** Smallest first, largest last: while nothing has been reduced *)

(** C8, as amended.  Throughout a traversal with [len > 1] and [n > 0],
    as long as no generated value has been reduced (the ring has a
    single slot, or the largest Fibonacci number generated so far,
    [fib (n + iters)], is below [len]), the value at ring position
    [i_buf] is the smallest value the ring holds, and the value
    generated last, one position back from [i_buf], is the largest. *)
Theorem lowest_first_until_reduced {D : Type} len n (oh ol : op_t D)
    d iters s :
  1 < len <= 2 ^ 64 → 0 < n <= INT_MAX → 0 <= iters →
  n = 1 ∨ fib (Z.to_nat (n + iters)) < len →
  traverse len n oh ol d iters = Some s →
  ∃ lowest,
    load (st_buf s) (st_i_buf s) = Some lowest
    ∧ Forall (λ v, lowest <= v) (st_buf s)
    ∧ (0 < iters →
       ∃ newest,
         load (st_buf s) (dec_ring (st_i_buf s) n) = Some newest
         ∧ Forall (λ v, v <= newest) (st_buf s)).
Proof.
  intros Hlen Hn Hiters Hbound Hs.
  destruct (decide (n = 1)) as [->|Hn1].
  - (* a single slot *)
    assert (Z.of_nat (length (st_buf s)) = 1 ∧ 0 <= st_i_buf s < 1)
      as [Hl Hi].
    { unfold traverse in Hs.
      destruct (seed_spec 1 len) as (buf & Hseed & Hl & _); [lia|].
      rewrite Hseed in Hs. simpl_bind in Hs.
      apply (loop_partial len 1 oh ol
               (λ _ t, Z.of_nat (length (st_buf t)) = 1
                       ∧ 0 <= st_i_buf t < 1))
        with (k := Z.to_nat iters) (s := State d buf 0); [| |done].
      - intros _ t t'. apply iteration_ring_shape; [lia|].
        unfold RING_MAX. lia.
      - cbn [st_buf st_i_buf]. lia. }
    assert (st_i_buf s = 0) as -> by lia.
    destruct (st_buf s) as [|x [|y l]]; cbn in Hl; try lia.
    exists x. split; [done|]. split; [by repeat constructor|].
    intros _. exists x. split; [done|]. by repeat constructor.
  - destruct Hbound as [?|Hbound]; [done|].
    assert (2 <= n <= INT_MAX) as Hn2 by lia.
    pose proof (traverse_ring_at len n oh ol d iters s ltac:(lia) Hn2 Hs)
      as Hring.
    set (k := Z.to_nat iters) in *.
    assert (∀ j, (j < Z.to_nat n)%nat → term len (k + j) = fib (S (k + j)))
      as Hfib.
    { intros j Hj. apply term_fib; [lia|].
      eapply Z.le_lt_trans; [|exact Hbound]. apply fib_mono. lia. }
    pose proof Hring as (Hl & Hi & Hterms).
    exists (fib (S k)). split; [|split].
    + rewrite Hi. rewrite <- (Z.add_0_r (Z.of_nat k)).
      rewrite Hterms by lia. change (Z.to_nat 0) with O.
      rewrite Hfib by lia. by rewrite Nat.add_0_r.
    + apply Forall_lookup. intros m v Hm.
      destruct (ring_at_values len n k s m v ltac:(lia) Hring Hm)
        as (j & Hj & ->).
      rewrite Hfib by done. apply fib_mono. lia.
    + intros Hpos.
      assert (n <= RING_MAX) as Hle.
      { destruct (decide (n <= RING_MAX)) as [|Hgt]; [done|].
        rewrite traverse_beyond_RING_MAX in Hs; [done|lia|done]. }
      exists (fib (S (k + Z.to_nat (n - 1)))). split.
      * rewrite Hi. rewrite dec_ring_mod by lia.
        rewrite Hterms by lia. by rewrite Hfib by lia.
      * apply Forall_lookup. intros m v Hm.
        destruct (ring_at_values len n k s m v ltac:(lia) Hring Hm)
          as (j & Hj & ->).
        rewrite Hfib by done. apply fib_mono. lia.
Qed.

Lemma lowest_first_until_reduced_witness :
  let d := Mem (replicate 10 0) [] in
  let s := State (Mem [0; 2; 1; 0; 0; 0; 0; 0; 0; 0] []) [3; 5; 8] 0 in
  1 < 10 <= 2 ^ 64 ∧ 0 < 3 <= INT_MAX ∧ 0 <= 3
  ∧ (3 = 1 ∨ fib (Z.to_nat (3 + 3)) < 10)
  ∧ traverse 10 3 nop increment d 3 = Some s
  ∧ ∃ lowest,
      load (st_buf s) (st_i_buf s) = Some lowest
      ∧ Forall (λ v, lowest <= v) (st_buf s)
      ∧ (0 < 3 →
         ∃ newest,
           load (st_buf s) (dec_ring (st_i_buf s) 3) = Some newest
           ∧ Forall (λ v, v <= newest) (st_buf s)).
Proof.
  intros d s.
  assert (1 < 10 <= 2 ^ 64) as Hlen by lia.
  assert (0 < 3 <= INT_MAX) as Hn by (unfold INT_MAX; lia).
  assert (0 <= 3) as Hiters by lia.
  assert (3 = 1 ∨ fib (Z.to_nat (3 + 3)) < 10) as Hbound
    by (right; vm_compute; reflexivity).
  assert (traverse 10 3 nop increment d 3 = Some s) as Hs
    by (vm_compute; reflexivity).
  split; [exact Hlen|]. split; [exact Hn|]. split; [exact Hiters|].
  split; [exact Hbound|]. split; [exact Hs|].
  exact (lowest_first_until_reduced 10 3 nop increment d 3 s
           Hlen Hn Hiters Hbound Hs).
Defined.

(** C8 as stated fails once a value has been reduced.  With a buffer of
    length 10 and a ring of 3 slots, the fourth iteration generates
    [8 + 5 - 10 = 3]: the value generated last (3, in slot 0) is not the
    largest in the ring (8 is there), and the value at [i_buf = 1] (5) is
    not the smallest (3 is there). *)
Lemma lowest_first_lost_after_reduction :
  traverse 10 3 nop increment (Mem (replicate 10 0) []) 4 =
    Some (State (Mem [0; 2; 1; 1; 0; 0; 0; 0; 0; 0] []) [3; 5; 8] 1)
  ∧ load [3; 5; 8] 1 = Some 5
  ∧ ¬ Forall (λ v, 5 <= v) [3; 5; 8]
  ∧ load [3; 5; 8] (dec_ring 1 3) = Some 3
  ∧ ¬ Forall (λ v, v <= 3) [3; 5; 8].
Proof.
  split; [by vm_compute|]. split; [done|]. split; [|split; [done|]].
  - intros H. apply Forall_inv in H. lia.
  - intros H. apply Forall_inv_tail, Forall_inv in H. lia.
Qed.

(** * Further properties of the code *)

(** ** Going round the ring *)

Lemma mod_small_pos i n : 0 <= i < n → i mod n = i.
Proof. intros Hi. by apply Z.mod_small. Qed.

(** X1.  On a ring of [0 < n <= INT_MAX] slots, [k] advances from a
    position [i] lead to [(i + k) mod n]; [n] advances lead back to
    [i]. *)
Theorem inc_ring_round n i k :
  0 < n <= INT_MAX → 0 <= i < n →
  Nat.iter k (λ j, inc_ring j n) i = (i + Z.of_nat k) mod n
  ∧ Nat.iter (Z.to_nat n) (λ j, inc_ring j n) i = i.
Proof.
  intros Hn Hi.
  assert (∀ m, Nat.iter m (λ j, inc_ring j n) i = (i + Z.of_nat m) mod n) as H.
  { induction m as [|m IH].
    - change (Nat.iter 0 (λ j, inc_ring j n) i) with i.
      rewrite Z.add_0_r. by rewrite mod_small_pos.
    - rewrite Nat.iter_succ, IH, inc_ring_mod by done. f_equal. lia. }
  split; [apply H|]. rewrite H, Z2Nat.id by lia.
  replace (i + n) with (i + 1 * n) by lia.
  rewrite Z_mod_plus_full. by apply mod_small_pos.
Qed.

Lemma inc_ring_round_witness :
  0 < 32 <= INT_MAX ∧ 0 <= 30 < 32
  ∧ Nat.iter 5 (λ j, inc_ring j 32) 30 = (30 + Z.of_nat 5) mod 32
  ∧ Nat.iter (Z.to_nat 32) (λ j, inc_ring j 32) 30 = 30.
Proof.
  assert (0 < 32 <= INT_MAX) as Hn by (unfold INT_MAX; lia).
  assert (0 <= 30 < 32) as Hi by lia.
  split; [exact Hn|]. split; [exact Hi|].
  exact (inc_ring_round 32 30 5 Hn Hi).
Defined.

(** X2.  On a ring of [0 < n <= RING_MAX] slots, [k] retreats from a
    position [i] lead to [(i - k) mod n]; [n] retreats lead back to
    [i]. *)
Theorem dec_ring_round n i k :
  0 < n <= RING_MAX → 0 <= i < n →
  Nat.iter k (λ j, dec_ring j n) i = (i - Z.of_nat k) mod n
  ∧ Nat.iter (Z.to_nat n) (λ j, dec_ring j n) i = i.
Proof.
  intros Hn Hi.
  assert (∀ m, Nat.iter m (λ j, dec_ring j n) i = (i - Z.of_nat m) mod n) as H.
  { induction m as [|m IH].
    - change (Nat.iter 0 (λ j, dec_ring j n) i) with i.
      rewrite Z.sub_0_r. by rewrite mod_small_pos.
    - rewrite Nat.iter_succ, IH, dec_ring_mod by done.
      replace (i - Z.of_nat m + (n - 1)) with (i - Z.of_nat (S m) + 1 * n)
        by lia.
      by rewrite Z_mod_plus_full. }
  split; [apply H|]. rewrite H, Z2Nat.id by lia.
  replace (i - n) with (i + (-1) * n) by lia.
  rewrite Z_mod_plus_full. by apply mod_small_pos.
Qed.

Lemma dec_ring_round_witness :
  0 < 32 <= RING_MAX ∧ 0 <= 3 < 32
  ∧ Nat.iter 5 (λ j, dec_ring j 32) 3 = (3 - Z.of_nat 5) mod 32
  ∧ Nat.iter (Z.to_nat 32) (λ j, dec_ring j 32) 3 = 3.
Proof.
  assert (0 < 32 <= RING_MAX) as Hn by (unfold RING_MAX; lia).
  assert (0 <= 3 < 32) as Hi by lia.
  split; [exact Hn|]. split; [exact Hi|].
  exact (dec_ring_round 32 3 5 Hn Hi).
Defined.

(** ** The edges of the traversal *)

(** X3.  Without a ring ([n <= 0]) the first iteration reads a slot that
    is not there: a run of one iteration or more has no defined result,
    whatever the operations. *)
Theorem no_ring_no_result {D : Type} (d : D) len iters (oh ol : op_t D) n :
  n <= 0 → 0 < iters →
  fibo_lookahead_foreach d len iters oh ol n = None.
Proof.
  intros Hn Hiters. unfold fibo_lookahead_foreach, traverse, seed.
  replace (Z.to_nat n) with O by lia. cbn [fill replicate]. simpl_bind.
  destruct (Z.to_nat iters) as [|k] eqn:Hk; [lia|].
  cbn [loop]. unfold iteration at 1. cbn [st_buf st_i_buf].
  assert (load (@nil Z) 0 = None) as -> by reflexivity.
  simpl_bind. reflexivity.
Qed.

Lemma no_ring_no_result_witness :
  0 <= 0 ∧ 0 < 1
  ∧ fibo_lookahead_foreach (Mem [0; 0] []) 2 1 nop increment 0 = None.
Proof.
  assert (0 <= 0) as Hn by lia.
  assert (0 < 1) as Hiters by lia.
  split; [exact Hn|]. split; [exact Hiters|].
  exact (no_ring_no_result (Mem [0; 0] []) 2 1 nop increment 0 Hn Hiters).
Defined.

(** X4.  With a buffer length above 0, a run of no iteration
    ([iters <= 0]) calls no operation and hands the data back as it
    got it. *)
Theorem no_iteration_no_change {D : Type} (d : D) len iters (oh ol : op_t D) n :
  0 < len → iters <= 0 →
  fibo_lookahead_foreach d len iters oh ol n = Some d.
Proof.
  intros Hlen Hiters. unfold fibo_lookahead_foreach, traverse.
  destruct (seed_spec n len Hlen) as (buf & -> & _). simpl_bind.
  replace (Z.to_nat iters) with O by lia. reflexivity.
Qed.

Lemma no_iteration_no_change_witness :
  0 < 1 ∧ 0 <= 0
  ∧ fibo_lookahead_foreach (Mem [5] []) 1 0 prefetch increment 3 =
    Some (Mem [5] []).
Proof.
  assert (0 < 1) as Hlen by lia.
  assert (0 <= 0) as Hiters by lia.
  split; [exact Hlen|]. split; [exact Hiters|].
  exact (no_iteration_no_change (Mem [5] []) 1 0 prefetch increment 3
           Hlen Hiters).
Defined.

(** X5.  With a buffer length of 0 and a ring of one slot or more the
    seeding never ends ([index >= 0] holds for every [index]): the call
    has no result, even for a run of no iteration. *)
Theorem no_length_no_return {D : Type} (d : D) iters (oh ol : op_t D) n :
  0 < n → fibo_lookahead_foreach d 0 iters oh ol n = None.
Proof.
  intros Hn. unfold fibo_lookahead_foreach, traverse, seed.
  destruct (Z.to_nat n) as [|k] eqn:Hk; [lia|].
  cbn [fill].
  destruct (store (replicate (S k) 0) 0 1) as [buf|]; simpl_bind; [|done].
  rewrite reduce_diverges by apply u64_range. simpl_bind. reflexivity.
Qed.

Lemma no_length_no_return_witness :
  0 < 32
  ∧ fibo_lookahead_foreach (Mem [] []) 0 0 nop increment 32 = None.
Proof.
  assert (0 < 32) as Hn by lia.
  split; [exact Hn|].
  exact (no_length_no_return (Mem [] []) 0 nop increment 32 Hn).
Defined.

(** ** The lookahead distance *)

Lemma lows_app t1 t2 : lows (t1 ++ t2) = lows t1 ++ lows t2.
Proof.
  induction t1 as [|[i|i] t1 IH]; cbn [app lows]; [done|by rewrite IH|done].
Qed.

Lemma highs_app t1 t2 : highs (t1 ++ t2) = highs t1 ++ highs t2.
Proof.
  induction t1 as [|[i|i] t1 IH]; cbn [app highs]; [done|done|by rewrite IH].
Qed.

(** An iteration takes the first value off the window and puts the new
    value at its end. *)
Lemma window_step (buf : list Z) i_buf n cur v :
  Z.of_nat (length buf) = n → n <= INT_MAX →
  load buf i_buf = Some cur →
  ∃ rest,
    window buf i_buf = cur :: rest
    ∧ window (<[Z.to_nat i_buf := v]> buf) (inc_ring i_buf n) = rest ++ [v].
Proof.
  intros Hl Hn Hcur. pose proof (load_lt _ _ _ Hcur) as Hi.
  apply load_Some in Hcur as [_ Hcur].
  exists (drop (S (Z.to_nat i_buf)) buf ++ take (Z.to_nat i_buf) buf).
  unfold window. split.
  - by rewrite (drop_S _ _ _ Hcur).
  - rewrite inc_ring_spec by lia. case_decide as Hlast.
    + change (Z.to_nat 0) with O. rewrite drop_0, app_nil_r.
      rewrite insert_take_drop by lia.
      rewrite (drop_ge buf (S (Z.to_nat i_buf))) by lia. done.
    + replace (Z.to_nat (i_buf + 1)) with (S (Z.to_nat i_buf)) by lia.
      rewrite drop_insert_lt by lia.
      rewrite (take_S_r _ _ v) by (apply list_lookup_insert_eq; lia).
      rewrite take_insert_ge by lia. by rewrite app_assoc.
Qed.

(** What a recorded run keeps, iteration after iteration: the seeds
    followed by the values generated so far are the values consumed so
    far followed by the window. *)
Lemma traced_loop_window {D : Type} len n (oh ol : op_t D) seeds k s s' :
  0 < len → 0 < n <= RING_MAX →
  Z.of_nat (length (st_buf s)) = n → 0 <= st_i_buf s < n →
  (st_data s).2 = [] → window (st_buf s) (st_i_buf s) = seeds →
  loop len n (traced Highest oh) (traced Lowest ol) k s = Some s' →
  Z.of_nat (length (st_buf s')) = n
  ∧ 0 <= st_i_buf s' < n
  ∧ length (lows (st_data s').2) = k
  ∧ length (highs (st_data s').2) = k
  ∧ seeds ++ highs (st_data s').2 =
      lows (st_data s').2 ++ window (st_buf s') (st_i_buf s').
Proof.
  intros Hlen Hn Hl Hi Htr Hw Hloop.
  apply (loop_partial len n (traced Highest oh) (traced Lowest ol)
           (λ j t, Z.of_nat (length (st_buf t)) = n
                   ∧ 0 <= st_i_buf t < n
                   ∧ length (lows (st_data t).2) = j
                   ∧ length (highs (st_data t).2) = j
                   ∧ seeds ++ highs (st_data t).2 =
                       lows (st_data t).2 ++ window (st_buf t) (st_i_buf t)))
    with (k := k) (s := s); [| |done].
  - clear s s' Hl Hi Htr Hw Hloop.
    intros j s s' (Hl & Hi & Hlo & Hhi & Heq) Hit.
    apply iteration_inv in Hit as (cur & a & b & d1 & d2 & Hcur & _ & _
                                   & Hol & Hoh & ->); [|done].
    apply traced_inv in Hol as [_ Hol]. apply traced_inv in Hoh as [_ Hoh].
    destruct (window_step (st_buf s) (st_i_buf s) n cur
                (u64 (a + b) mod len) Hl) as (rest & Hw & Hw');
      [apply RING_MAX_INT_MAX, Hn|done|].
    cbn [st_buf st_i_buf st_data].
    rewrite Hoh, Hol, !lows_app, !highs_app. cbn [lows highs].
    rewrite !app_nil_r, !length_app. cbn [length].
    split; [by rewrite length_insert|].
    split; [apply inc_ring_range; [done|apply RING_MAX_INT_MAX, Hn]|].
    split; [lia|]. split; [lia|].
    rewrite Hw', app_assoc, Heq, Hw, <- !app_assoc. done.
  - rewrite Htr. cbn [lows highs length app]. rewrite app_nil_r. done.
Qed.

(** X6.  In a run on a ring of [0 < n <= RING_MAX] slots, whatever the
    operations: [op_lowest] and [op_highest] are each called once per
    iteration; the first [n] indices handed to [op_lowest] are the
    seeds; and every index handed to [op_highest] is handed to
    [op_lowest] exactly [n] iterations later. *)
Theorem lookahead_distance {D : Type} len n (oh ol : op_t D) d iters s :
  0 < len → 0 < n <= RING_MAX →
  traverse len n (traced Highest oh) (traced Lowest ol) (d, []) iters = Some s →
  let tr := (st_data s).2 in
  ∃ seeds,
    seed n len = Some seeds
    ∧ length (lows tr) = Z.to_nat iters
    ∧ length (highs tr) = Z.to_nat iters
    ∧ (∀ k, (k < Z.to_nat n)%nat → (k < Z.to_nat iters)%nat →
            lows tr !! k = seeds !! k)
    ∧ (∀ k, (k + Z.to_nat n < Z.to_nat iters)%nat →
            lows tr !! (k + Z.to_nat n)%nat = highs tr !! k).
Proof.
  intros Hlen Hn Hs tr. unfold traverse in Hs.
  destruct (seed_spec n len Hlen) as (seeds & Hseed & Hl & _).
  rewrite Hseed in Hs. simpl_bind in Hs.
  apply (traced_loop_window len n oh ol seeds) in Hs
    as (_ & _ & Hlo & Hhi & Heq); cbn [st_buf st_i_buf st_data snd];
    [|done|done|lia|lia|done|].
  2: { unfold window. change (Z.to_nat 0) with O.
       by rewrite drop_0, app_nil_r. }
  fold tr in Hlo, Hhi, Heq.
  exists seeds. split; [done|]. split; [done|]. split; [done|]. split.
  - intros k Hkn Hki.
    rewrite <- (lookup_app_l (lows tr) (window (st_buf s) (st_i_buf s)))
      by lia.
    rewrite <- Heq. apply lookup_app_l. lia.
  - intros k Hk.
    rewrite <- (lookup_app_l (lows tr) (window (st_buf s) (st_i_buf s)))
      by lia.
    rewrite <- Heq, lookup_app_r by lia. f_equal. lia.
Qed.

Lemma lookahead_distance_witness :
  let d := Mem (replicate 10 0) [] in
  let tr := [Lowest 1; Highest 3; Lowest 1; Highest 5; Lowest 2; Highest 8;
             Lowest 3; Highest 3; Lowest 5; Highest 1] in
  let s := State (Mem [0; 2; 1; 1; 0; 1; 0; 0; 0; 0] [1; 3; 8; 5; 3], tr)
                 [3; 1; 8] 2 in
  0 < 10 ∧ 0 < 3 <= RING_MAX
  ∧ traverse 10 3 (traced Highest prefetch) (traced Lowest increment)
      (d, []) 5 = Some s
  ∧ ∃ seeds,
      seed 3 10 = Some seeds
      ∧ length (lows tr) = Z.to_nat 5
      ∧ length (highs tr) = Z.to_nat 5
      ∧ (∀ k, (k < Z.to_nat 3)%nat → (k < Z.to_nat 5)%nat →
              lows tr !! k = seeds !! k)
      ∧ (∀ k, (k + Z.to_nat 3 < Z.to_nat 5)%nat →
              lows tr !! (k + Z.to_nat 3)%nat = highs tr !! k).
Proof.
  intros d tr s.
  assert (0 < 10) as Hlen by lia.
  assert (0 < 3 <= RING_MAX) as Hn by (unfold RING_MAX; lia).
  assert (traverse 10 3 (traced Highest prefetch) (traced Lowest increment)
            (d, []) 5 = Some s) as Hs by (vm_compute; reflexivity).
  split; [exact Hlen|]. split; [exact Hn|]. split; [exact Hs|].
  exact (lookahead_distance 10 3 prefetch increment d 5 s Hlen Hn Hs).
Defined.

(** ** The access pattern: Fibonacci numbers modulo the length *)

(** Up to a length of 2^63 no sum of two values below the length leaves
    the range of [uint64_t], and the generated sequence is the Fibonacci
    sequence modulo the length. *)
Lemma gen_fib_mod len j :
  1 < len <= 2 ^ 63 → gen len j = (fib (S j) mod len, fib j mod len).
Proof.
  intros Hlen. induction j as [|j IH].
  - cbn [gen]. change (fib 1) with 1. change (fib 0) with 0.
    rewrite Z.mod_small, Z.mod_0_l by lia. done.
  - cbn [gen]. rewrite IH.
    pose proof (Z.mod_pos_bound (fib (S j)) len ltac:(lia)).
    pose proof (Z.mod_pos_bound (fib j) len ltac:(lia)).
    rewrite u64_id by lia. rewrite <- Zplus_mod, <- fib_S_S. done.
Qed.

Lemma term_fib_mod len j :
  1 < len <= 2 ^ 63 → term len j = fib (S j) mod len.
Proof. intros Hlen. unfold term. by rewrite gen_fib_mod. Qed.

Lemma lookup_map_seq {A} (f : nat → A) j n i :
  map f (seq j n) !! i = if decide (i < n)%nat then Some (f (j + i)%nat) else None.
Proof.
  change (map f (seq j n)) with (f <$> seq j n).
  rewrite list_lookup_fmap. case_decide.
  - by rewrite lookup_seq_lt.
  - by rewrite lookup_seq_ge by lia.
Qed.

(** X7.  Up to a buffer length of 2^63, the seeding fills slot [j] of
    the ring with the Fibonacci number [fib (j + 1)] modulo the length:
    1, 1, 2, 3, 5, ... reduced. *)
Theorem seed_fibonacci n len :
  1 < len <= 2 ^ 63 →
  seed n len = Some (map (λ j, fib (S j) mod len) (seq 0 (Z.to_nat n))).
Proof.
  intros Hlen.
  destruct (seed_spec n len) as (buf & -> & Hl & Hm); [lia|].
  f_equal. apply list_eq. intros i. rewrite lookup_map_seq.
  case_decide as Hi.
  - rewrite Hm by done. by rewrite term_fib_mod.
  - apply lookup_ge_None. lia.
Qed.

Lemma seed_fibonacci_witness :
  1 < 10 <= 2 ^ 63
  ∧ seed 8 10 = Some (map (λ j, fib (S j) mod 10) (seq 0 (Z.to_nat 8)))
  ∧ map (λ j, fib (S j) mod 10) (seq 0 (Z.to_nat 8)) = [1; 1; 2; 3; 5; 8; 3; 1].
Proof.
  assert (1 < 10 <= 2 ^ 63) as Hlen by lia.
  split; [exact Hlen|]. split; [|vm_compute; reflexivity].
  exact (seed_fibonacci 8 10 Hlen).
Defined.

(** After [k] iterations of a recorded run on a ring of two slots or
    more: the indices consumed are the terms [0 .. k - 1] of the
    generated sequence, the indices generated the terms
    [n .. n + k - 1]. *)
Lemma traced_loop_terms {D : Type} len n (oh ol : op_t D) k s s' :
  0 < len → 2 <= n <= RING_MAX →
  ring_at len n O s → (st_data s).2 = [] →
  loop len n (traced Highest oh) (traced Lowest ol) k s = Some s' →
  ring_at len n k s'
  ∧ lows (st_data s').2 = map (term len) (seq 0 k)
  ∧ highs (st_data s').2 = map (term len) (seq (Z.to_nat n) k).
Proof.
  intros Hlen Hn Hring Htr Hloop.
  apply (loop_partial len n (traced Highest oh) (traced Lowest ol)
           (λ j t, ring_at len n j t
                   ∧ lows (st_data t).2 = map (term len) (seq 0 j)
                   ∧ highs (st_data t).2 = map (term len) (seq (Z.to_nat n) j)))
    with (k := k) (s := s); [| |done].
  - clear s s' Hring Htr Hloop.
    intros j s s' (Hring & Hlo & Hhi) Hit.
    pose proof (iteration_ring_at _ _ _ _ _ _ _ Hlen Hn Hring Hit) as Hring'.
    apply iteration_inv in Hit as (cur & a & b & d1 & d2 & Hcur & _ & _
                                   & Hol & Hoh & ->); [|done].
    apply traced_inv in Hol as [_ Hol]. apply traced_inv in Hoh as [_ Hoh].
    split; [done|].
    destruct Hring as (Hl & Hi & Hterms).
    destruct Hring' as (_ & _ & Hterms').
    cbn [st_buf st_i_buf st_data] in *.
    (* the value consumed is the term [j] *)
    assert (cur = term len j) as ->.
    { specialize (Hterms 0 ltac:(lia)). rewrite Z.add_0_r, <- Hi in Hterms.
      rewrite Hcur in Hterms. injection Hterms as ->.
      f_equal. change (Z.to_nat 0) with O. lia. }
    (* the value generated is the term [j + n] *)
    assert (u64 (a + b) mod len = term len (Z.to_nat n + j)) as Hv.
    { specialize (Hterms' (n - 1) ltac:(lia)).
      replace (Z.of_nat (S j) + (n - 1)) with (Z.of_nat j + 1 * n)
        in Hterms' by lia.
      rewrite Z_mod_plus_full, <- Hi in Hterms'.
      rewrite load_store_eq in Hterms'
        by (rewrite Hi; pose proof (Z.mod_pos_bound (Z.of_nat j) n); lia).
      injection Hterms' as ->. f_equal. lia. }
    rewrite Hoh, Hol, Hv, !lows_app, !highs_app. cbn [lows highs].
    rewrite !app_nil_r, Hlo, Hhi, !seq_S, !map_app. done.
  - rewrite Htr. done.
Qed.

(** X8.  Up to a buffer length of 2^63 and on a ring of
    [2 <= n <= RING_MAX] slots, the run goes through the Fibonacci
    numbers modulo the length: iteration [k] (from 0) hands
    [fib (k + 1) mod len] to [op_lowest] and [fib (k + n + 1) mod len]
    to [op_highest]. *)
Theorem fibonacci_access_pattern len n iters :
  1 < len <= 2 ^ 63 → 2 <= n <= RING_MAX →
  ∃ tr,
    calls len iters n = Some tr
    ∧ lows tr = map (λ k, fib (S k) mod len) (seq 0 (Z.to_nat iters))
    ∧ highs tr =
        map (λ k, fib (S k) mod len) (seq (Z.to_nat n) (Z.to_nat iters)).
Proof.
  intros Hlen Hn. unfold calls, fibo_lookahead_foreach.
  destruct (traverse_total (λ _ _, True) len n
              (traced Highest skip) (traced Lowest skip) (tt, [])
              iters) as (s & Hs & _); [lia|lia| |done|].
  { intros j d cur _ _ _. eexists. split; [reflexivity|].
    intros v _. eexists. split; [reflexivity|done]. }
  rewrite Hs. exists (st_data s).2. split; [done|].
  unfold traverse in Hs.
  destruct (seed n len) as [buf|] eqn:Hseed; simpl_bind in Hs; [|done].
  apply traced_loop_terms in Hs as (_ & Hlo & Hhi);
    [|lia|lia|apply seed_ring_at; [lia|lia|done]|done].
  rewrite Hlo, Hhi. split; apply map_ext; intros k; by apply term_fib_mod.
Qed.

Lemma fibonacci_access_pattern_witness :
  1 < 10 <= 2 ^ 63 ∧ 2 <= 3 <= RING_MAX
  ∧ ∃ tr,
      calls 10 5 3 = Some tr
      ∧ lows tr = map (λ k, fib (S k) mod 10) (seq 0 (Z.to_nat 5))
      ∧ highs tr =
          map (λ k, fib (S k) mod 10) (seq (Z.to_nat 3) (Z.to_nat 5)).
Proof.
  assert (1 < 10 <= 2 ^ 63) as Hlen by lia.
  assert (2 <= 3 <= RING_MAX) as Hn by (unfold RING_MAX; lia).
  split; [exact Hlen|]. split; [exact Hn|].
  exact (fibonacci_access_pattern 10 3 5 Hlen Hn).
Defined.

(** ** A ring of one slot *)

(** X9.  On a ring of a single slot the two positions back from
    [i_buf] are [i_buf] itself, and the run doubles instead of adding
    the two last values: up to a buffer length of 2^63, iteration [k]
    hands [2^k mod len] to [op_lowest] and [2^(k+1) mod len] to
    [op_highest]. *)
Theorem single_slot_doubles len iters :
  1 < len <= 2 ^ 63 →
  ∃ tr,
    calls len iters 1 = Some tr
    ∧ lows tr = map (λ k, 2 ^ Z.of_nat k mod len) (seq 0 (Z.to_nat iters))
    ∧ highs tr = map (λ k, 2 ^ Z.of_nat k mod len) (seq 1 (Z.to_nat iters)).
Proof.
  intros Hlen. unfold calls, fibo_lookahead_foreach, traverse.
  destruct (seed_spec 1 len) as (buf & -> & Hl & Hm); [lia|]. simpl_bind.
  assert (buf = [1]) as ->.
  { destruct buf as [|x [|y buf]]; cbn in Hl; try lia.
    specialize (Hm O ltac:(lia)). cbn in Hm. by injection Hm as ->. }
  destruct (loop_total len 1 (traced Highest skip) (traced Lowest skip)
              (λ j (t : state (unit * list event)),
                 st_buf t = [2 ^ Z.of_nat j mod len]
                      ∧ st_i_buf t = 0
                      ∧ lows (st_data t).2 =
                          map (λ k, 2 ^ Z.of_nat k mod len) (seq 0 j)
                      ∧ highs (st_data t).2 =
                          map (λ k, 2 ^ Z.of_nat k mod len) (seq 1 j))
              (Z.to_nat iters)) with (s := State (tt, @nil event) [1] 0)
    as (s & -> & _ & _ & Hlo & Hhi).
  - intros j [[[] tr] buf i_buf] _ (Hbuf & Hi & Hlo & Hhi).
    cbn [st_buf st_i_buf st_data snd] in *. subst buf i_buf.
    set (x := 2 ^ Z.of_nat j mod len).
    pose proof (Z.mod_pos_bound (2 ^ Z.of_nat j) len ltac:(lia)) as Hx.
    fold x in Hx.
    assert (dec_ring 0 1 = 0) as Hdec by reflexivity.
    rewrite (iteration_unfold _ _ _ _ _ _ _ x x x);
      [|lia|done|by rewrite Hdec|by rewrite !Hdec].
    unfold traced, skip. cbn [fst snd]. simpl_bind.
    eexists. split; [reflexivity|]. cbn [st_buf st_i_buf st_data snd].
    assert (u64 (x + x) mod len = 2 ^ Z.of_nat (S j) mod len) as Hv.
    { rewrite u64_id by lia. unfold x.
      replace (2 ^ Z.of_nat j mod len + 2 ^ Z.of_nat j mod len)
        with (2 * (2 ^ Z.of_nat j mod len)) by lia.
      rewrite Z.mul_mod_idemp_r by lia. f_equal.
      rewrite Nat2Z.inj_succ, Z.pow_succ_r by lia. done. }
    rewrite Hv. split; [done|]. split; [done|].
    rewrite <- !app_assoc, !lows_app, !highs_app. cbn [lows highs app].
    rewrite Hlo, Hhi, !seq_S, !map_app. done.
  - cbn [st_buf st_i_buf st_data snd lows highs seq map].
    rewrite Z.pow_0_r, Z.mod_small by lia. done.
  - cbn. eexists. split; [reflexivity|]. done.
Qed.

Lemma single_slot_doubles_witness :
  1 < 10 <= 2 ^ 63
  ∧ (∃ tr,
       calls 10 6 1 = Some tr
       ∧ lows tr = map (λ k, 2 ^ Z.of_nat k mod 10) (seq 0 (Z.to_nat 6))
       ∧ highs tr = map (λ k, 2 ^ Z.of_nat k mod 10) (seq 1 (Z.to_nat 6)))
  ∧ lows <$> calls 10 6 1 = Some [1; 2; 4; 8; 6; 2].
Proof.
  assert (1 < 10 <= 2 ^ 63) as Hlen by lia.
  split; [exact Hlen|]. split; [|vm_compute; reflexivity].
  exact (single_slot_doubles 10 6 Hlen).
Defined.

(** ** The current operation *)

(** X10.  [increment] looks at the buffer, not at the length it is
    given: on an index inside the buffer it adds one to that counter
    (from [LONG_MAX], round to [LONG_MIN]) and leaves every other
    counter, the number of counters and the hints alone; on an index
    outside the buffer it has no defined result. *)
Theorem increment_bounds m len i :
  (0 <= i < Z.of_nat (length (cells m)) →
   ∃ c m',
     cells m !! Z.to_nat i = Some c
     ∧ increment m len i = Some m'
     ∧ (LONG_MIN <= c < LONG_MAX → cells m' !! Z.to_nat i = Some (c + 1))
     ∧ (c = LONG_MAX → cells m' !! Z.to_nat i = Some LONG_MIN)
     ∧ (∀ j, j ≠ Z.to_nat i → cells m' !! j = cells m !! j)
     ∧ length (cells m') = length (cells m)
     ∧ hints m' = hints m)
  ∧ (¬ 0 <= i < Z.of_nat (length (cells m)) → increment m len i = None).
Proof.
  split.
  - intros Hi. destruct (load_is_Some (cells m) i Hi) as [c Hc].
    exists c, (Mem (<[Z.to_nat i := wrap_long (c + 1)]> (cells m)) (hints m)).
    pose proof Hc as Hc'. apply load_Some in Hc' as [_ Hc'].
    split; [done|]. split.
    { unfold increment. rewrite Hc. simpl_bind.
      rewrite store_Some by done. simpl_bind. reflexivity. }
    cbn [cells hints]. rewrite list_lookup_insert_eq by lia.
    split; [|split; [|split; [|split]]].
    + intros Hr. by rewrite wrap_long_id by lia.
    + intros ->. by vm_compute.
    + intros j Hj. by apply list_lookup_insert_ne.
    + apply length_insert.
    + done.
  - intros Hi. unfold increment.
    destruct (load (cells m) i) as [c|] eqn:Hc; simpl_bind; [|done].
    apply load_lt in Hc. lia.
Qed.

Lemma insert_insert_ne {A} (l : list A) i j x y :
  i ≠ j → <[i := x]> (<[j := y]> l) = <[j := y]> (<[i := x]> l).
Proof.
  intros Hne. apply list_eq. intros k.
  destruct (decide (k = i)) as [->|Hki];
    [|destruct (decide (k = j)) as [->|Hkj]].
  - destruct (decide (i < length l)%nat).
    + rewrite list_lookup_insert_eq by (by rewrite length_insert).
      rewrite list_lookup_insert_ne by done.
      by rewrite list_lookup_insert_eq.
    + rewrite !lookup_ge_None_2; [done|rewrite !length_insert; lia..].
  - destruct (decide (j < length l)%nat).
    + rewrite list_lookup_insert_ne by done.
      rewrite !list_lookup_insert_eq; [done|by rewrite length_insert|done].
    + rewrite !lookup_ge_None_2; [done|rewrite !length_insert; lia..].
  - by rewrite !list_lookup_insert_ne.
Qed.

(** X11.  Two increments commute: the counters a run leaves depend on
    how often each index was the current one, not on the order. *)
Theorem increment_commutes m len i j :
  (m1 ← increment m len i; increment m1 len j) =
  (m2 ← increment m len j; increment m2 len i).
Proof.
  destruct (decide (i = j)) as [->|Hne]; [done|].
  destruct (decide (0 <= i < Z.of_nat (length (cells m)))) as [Hi|Hi];
    [destruct (decide (0 <= j < Z.of_nat (length (cells m)))) as [Hj|Hj]|].
  - destruct (load_is_Some (cells m) i Hi) as [ci Hci].
    destruct (load_is_Some (cells m) j Hj) as [cj Hcj].
    unfold increment. rewrite Hci, Hcj. simpl_bind.
    rewrite !store_Some by done. simpl_bind. cbn [cells hints].
    rewrite !load_store_ne by lia. rewrite Hci, Hcj. simpl_bind.
    rewrite !store_Some by (by rewrite length_insert). simpl_bind.
    rewrite insert_insert_ne by lia. reflexivity.
  - assert (increment m len j = None) as Hnone.
    { unfold increment.
      destruct (load (cells m) j) as [c|] eqn:Hc; simpl_bind; [|done].
      apply load_lt in Hc. lia. }
    rewrite Hnone. simpl_bind.
    destruct (increment m len i) as [m1|] eqn:Hm1; simpl_bind; [|done].
    unfold increment in *.
    destruct (load (cells m) i) as [c|]; simpl_bind in Hm1; [|done].
    destruct (store (cells m) i (wrap_long (c + 1))) as [cs|] eqn:Hst;
      simpl_bind in Hm1; [|done].
    injection Hm1 as <-. cbn [cells].
    unfold store in Hst.
    destruct ((0 <=? i) && (i <? Z.of_nat (length (cells m)))); [|done].
    injection Hst as <-.
    destruct (load (<[Z.to_nat i := wrap_long (c + 1)]> (cells m)) j)
      as [c'|] eqn:Hc'; simpl_bind; [|done].
    apply load_lt in Hc'. rewrite length_insert in Hc'. lia.
  - assert (increment m len i = None) as Hnone.
    { unfold increment.
      destruct (load (cells m) i) as [c|] eqn:Hc; simpl_bind; [|done].
      apply load_lt in Hc. lia. }
    rewrite Hnone. simpl_bind.
    destruct (increment m len j) as [m2|] eqn:Hm2; simpl_bind; [|done].
    unfold increment in *.
    destruct (load (cells m) j) as [c|]; simpl_bind in Hm2; [|done].
    destruct (store (cells m) j (wrap_long (c + 1))) as [cs|] eqn:Hst;
      simpl_bind in Hm2; [|done].
    injection Hm2 as <-. cbn [cells].
    unfold store in Hst.
    destruct ((0 <=? j) && (j <? Z.of_nat (length (cells m)))); [|done].
    injection Hst as <-.
    destruct (load (<[Z.to_nat j := wrap_long (c + 1)]> (cells m)) i)
      as [c'|] eqn:Hc'; simpl_bind; [|done].
    apply load_lt in Hc'. rewrite length_insert in Hc'. lia.
Qed.

(** ** The lookahead operation *)

Lemma increment_keeps m len cur :
  Z.of_nat (length (cells m)) = len → in_range len cur →
  ∃ m', increment m len cur = Some m'
    ∧ Z.of_nat (length (cells m')) = len
    ∧ hints m' = hints m.
Proof.
  intros Hl Hcur. unfold in_range in Hcur. unfold increment.
  destruct (load_is_Some (cells m) cur) as [c Hc]; [lia|].
  rewrite Hc. simpl_bind. rewrite store_Some by lia. simpl_bind.
  eexists. split; [reflexivity|]. cbn [cells hints].
  by rewrite length_insert.
Qed.

(** The two benchmark runs, with their calls recorded: both end; the
    first leaves the hints alone, the second adds one hint per generated
    index. *)
Lemma traced_runs_hints cs h len iters n :
  1 < len → 0 < n <= RING_MAX → Z.of_nat (length cs) = len →
  ∃ s0 s1,
    traverse len n (traced Highest nop) (traced Lowest increment)
      (Mem cs h, []) iters = Some s0
    ∧ hints (st_data s0).1 = h
    ∧ traverse len n (traced Highest prefetch) (traced Lowest increment)
        (Mem cs h, []) iters = Some s1
    ∧ hints (st_data s1).1 = reverse (highs (st_data s1).2) ++ h.
Proof.
  intros Hlen Hn Hl.
  destruct (traverse_total
              (λ _ (p : mem * list event),
                 Z.of_nat (length (cells p.1)) = len ∧ hints p.1 = h)
              len n (traced Highest nop) (traced Lowest increment)
              (Mem cs h, []) iters Hlen Hn) as (s0 & Hs0 & _ & Hh0).
  { intros j p cur _ [Hpl Hph] Hcur.
    destruct (increment_keeps p.1 len cur Hpl Hcur) as (m' & Hm' & Hl' & Hh').
    unfold traced. rewrite Hm'. simpl_bind.
    eexists. split; [reflexivity|]. intros v _. cbn [fst snd]. unfold nop.
    simpl_bind. eexists. split; [reflexivity|]. cbn [fst].
    split; [done|congruence]. }
  { done. }
  destruct (traverse_total
              (λ _ (p : mem * list event),
                 Z.of_nat (length (cells p.1)) = len
                 ∧ hints p.1 = reverse (highs p.2) ++ h)
              len n (traced Highest prefetch) (traced Lowest increment)
              (Mem cs h, []) iters Hlen Hn) as (s1 & Hs1 & _ & Hh1).
  { intros j p cur _ [Hpl Hph] Hcur.
    destruct (increment_keeps p.1 len cur Hpl Hcur) as (m' & Hm' & Hl' & Hh').
    unfold traced. rewrite Hm'. simpl_bind.
    eexists. split; [reflexivity|]. intros v _. cbn [fst snd]. unfold prefetch.
    simpl_bind. eexists. split; [reflexivity|]. cbn [fst snd cells hints].
    split; [done|].
    rewrite <- app_assoc, highs_app. cbn [highs app].
    rewrite reverse_snoc, Hh', Hph. done. }
  { done. }
  by exists s0, s1.
Qed.

(** A recorded run generates one index per iteration. *)
Lemma traced_highs_length {D : Type} len n (oh ol : op_t D) d iters s :
  0 < len → 0 < n <= RING_MAX →
  traverse len n (traced Highest oh) (traced Lowest ol) (d, []) iters = Some s →
  length (highs (st_data s).2) = Z.to_nat iters.
Proof.
  intros Hlen Hn Hs. unfold traverse in Hs.
  destruct (seed_spec n len Hlen) as (seeds & Hseed & Hsl & _).
  rewrite Hseed in Hs. simpl_bind in Hs.
  apply (traced_loop_window len n oh ol seeds) in Hs
    as (_ & _ & _ & Hhi & _); cbn [st_buf st_i_buf st_data snd];
    [done|done|done|lia|lia|done|].
  unfold window. change (Z.to_nat 0) with O. by rewrite drop_0, app_nil_r.
Qed.

(** X12.  On a buffer of [len > 1] counters and a ring of
    [0 < n <= RING_MAX] slots both benchmark runs end.  The run with
    [nop] leaves the hints as they were; the run with [prefetch] has
    handed the cache one address per iteration: the indices it generated,
    in the order it generated them (the most recent first in [hints]),
    and nothing else. *)
Theorem prefetch_hints cs h len iters n :
  1 < len → 0 < n <= RING_MAX → Z.of_nat (length cs) = len →
  ∃ m0 m1 tr,
    fibo_lookahead_foreach (Mem cs h) len iters nop increment n = Some m0
    ∧ fibo_lookahead_foreach (Mem cs h) len iters prefetch increment n = Some m1
    ∧ calls len iters n = Some tr
    ∧ hints m0 = h
    ∧ hints m1 = reverse (highs tr) ++ h
    ∧ length (highs tr) = Z.to_nat iters.
Proof.
  intros Hlen Hn Hl.
  destruct (traced_runs_hints cs h len iters n Hlen Hn Hl)
    as (s0 & s1 & Hs0 & Hh0 & Hs1 & Hh1).
  exists (st_data s0).1, (st_data s1).1, (st_data s1).2.
  split; [by eapply traced_erase|]. split; [by eapply traced_erase|].
  split; [by eapply traced_calls|]. split; [done|]. split; [done|].
  eapply traced_highs_length; [|done|done]. lia.
Qed.

Lemma prefetch_hints_witness :
  let cs := replicate 10 0 in
  1 < 10 ∧ 0 < 3 <= RING_MAX ∧ Z.of_nat (length cs) = 10
  ∧ (∃ m0 m1 tr,
       fibo_lookahead_foreach (Mem cs [7]) 10 5 nop increment 3 = Some m0
       ∧ fibo_lookahead_foreach (Mem cs [7]) 10 5 prefetch increment 3 = Some m1
       ∧ calls 10 5 3 = Some tr
       ∧ hints m0 = [7]
       ∧ hints m1 = reverse (highs tr) ++ [7]
       ∧ length (highs tr) = Z.to_nat 5)
  ∧ hints <$> fibo_lookahead_foreach (Mem cs [7]) 10 5 prefetch increment 3 =
    Some [1; 3; 8; 5; 3; 7].
Proof.
  intros cs.
  assert (1 < 10) as Hlen by lia.
  assert (0 < 3 <= RING_MAX) as Hn by (unfold RING_MAX; lia).
  assert (Z.of_nat (length cs) = 10) as Hl by reflexivity.
  split; [exact Hlen|]. split; [exact Hn|]. split; [exact Hl|].
  split; [|vm_compute; reflexivity].
  exact (prefetch_hints cs [7] 10 5 3 Hlen Hn Hl).
Defined.

(** ** One iteration more *)

(** X13.  The calls of a run do not depend on how long it goes on: a
    run of one iteration more makes the same calls, followed by one call
    of [op_lowest] and one of [op_highest]. *)
Theorem calls_extend len iters n tr' :
  0 < len → 0 <= iters →
  calls len (iters + 1) n = Some tr' →
  ∃ tr cur new,
    calls len iters n = Some tr
    ∧ tr' = tr ++ [Lowest cur; Highest new].
Proof.
  intros Hlen Hiters Hcalls.
  unfold calls, fibo_lookahead_foreach, traverse in *.
  destruct (seed n len) as [buf|]; simpl_bind in Hcalls; [|done]. simpl_bind.
  replace (Z.to_nat (iters + 1)) with (S (Z.to_nat iters)) in Hcalls by lia.
  rewrite loop_snoc in Hcalls.
  destruct (loop len n (traced Highest skip) (traced Lowest skip)
              (Z.to_nat iters) (State (tt, []) buf 0)) as [s|];
    simpl_bind in Hcalls; [|done].
  destruct (iteration len n (traced Highest skip) (traced Lowest skip) s)
    as [s'|] eqn:Hit; [|done].
  apply iteration_inv in Hit as (cur & a & b & d1 & d2 & _ & _ & _
                                 & Hol & Hoh & ->); [|done].
  apply traced_inv in Hol as [_ Hol]. apply traced_inv in Hoh as [_ Hoh].
  cbn in Hcalls. injection Hcalls as <-.
  exists (st_data s).2, cur, (u64 (a + b) mod len).
  split; [done|]. by rewrite Hoh, Hol, <- app_assoc.
Qed.

Lemma calls_extend_witness :
  let tr' := [Lowest 1; Highest 3; Lowest 1; Highest 5] in
  0 < 10 ∧ 0 <= 1
  ∧ calls 10 (1 + 1) 3 = Some tr'
  ∧ ∃ tr cur new,
      calls 10 1 3 = Some tr ∧ tr' = tr ++ [Lowest cur; Highest new].
Proof.
  intros tr'.
  assert (0 < 10) as Hlen by lia.
  assert (0 <= 1) as Hiters by lia.
  assert (calls 10 (1 + 1) 3 = Some tr') as Hcalls by (vm_compute; reflexivity).
  split; [exact Hlen|]. split; [exact Hiters|]. split; [exact Hcalls|].
  exact (calls_extend 10 1 3 tr' Hlen Hiters Hcalls).
Defined.

(** ** The benchmark *)

Lemma zsum_replicate k : zsum (replicate k 0) = 0.
Proof.
  induction k as [|k IH]; [done|].
  rewrite replicate_S. change (zsum (0 :: replicate k 0))
    with (0 + zsum (replicate k 0)). lia.
Qed.

(** A run with [increment] on counters that cannot overflow ends, and
    the counters sum to [iters] more. *)
Lemma run_sum cs h len iters n (oh : op_t mem) :
  1 < len → 0 < n <= RING_MAX → 0 <= iters →
  Z.of_nat (length cs) = len →
  Forall (λ c, LONG_MIN <= c ∧ c + iters <= LONG_MAX) cs →
  oh = nop ∨ oh = prefetch →
  ∃ m, fibo_lookahead_foreach (Mem cs h) len iters oh increment n = Some m
    ∧ length (cells m) = length cs
    ∧ zsum (cells m) = zsum cs + iters.
Proof.
  intros Hlen Hn Hiters Hl Hcs Hoh.
  destruct (traverse_total (counted cs) len n
              (traced Highest oh) (traced Lowest increment)
              (Mem cs h, []) iters Hlen Hn) as (s & Hs & HI).
  - intros j p cur Hj Hp Hcur.
    destruct (increment_counted cs iters len j p cur Hl Hcs Hj Hp Hcur)
      as (p1 & Hp1 & _ & Hnext).
    exists p1. split; [done|]. intros v _.
    destruct Hoh as [-> | ->].
    + eexists. split; [reflexivity|]. by apply (Hnext v).
    + eexists. split; [reflexivity|]. by apply (Hnext v).
  - unfold counted. cbn [fst snd cells]. repeat split; try done.
    + intros k c Hk. rewrite Hk. cbn [count_lowest]. f_equal. lia.
    + lia.
  - destruct HI as (Hlen' & _ & Hsum & _).
    exists (st_data s).1. split; [by eapply traced_erase|].
    split; [done|lia].
Qed.

(** The two benchmark runs leave the same counters. *)
Lemma runs_agree cs h len iters n m0 m1 :
  fibo_lookahead_foreach (Mem cs h) len iters nop increment n = Some m0 →
  fibo_lookahead_foreach (Mem cs h) len iters prefetch increment n = Some m1 →
  cells m0 = cells m1.
Proof.
  unfold fibo_lookahead_foreach. intros H0 H1.
  pose proof (traverse_sim (λ a b, cells a = cells b) len n
                nop increment prefetch increment
                (λ d1 d2 i, increment_cells d1 d2 len i)
                (λ d1 d2 i, nop_prefetch_cells d1 d2 len i)
                (Mem cs h) (Mem cs h) iters eq_refl) as Hsim.
  destruct (traverse len n nop increment (Mem cs h) iters) as [s0|]; [|done].
  destruct (Hsim s0 eq_refl) as (s1 & Hs1 & Hc & _).
  rewrite Hs1 in H1. cbn in H0, H1.
  injection H0 as <-. injection H1 as <-. done.
Qed.

(** X14.  [main] runs to its end with exit status 0, without an access
    outside a buffer or the ring and without a counter overflowing.  The
    two buffers end with the same [LEN] counters, which sum to [ITERS];
    the first run has sent the cache nothing, the second [ITERS]
    prefetch hints. *)
Theorem main_runs :
  ∃ data0 data1,
    main = Some (data0, data1, 0)
    ∧ cells data0 = cells data1
    ∧ Z.of_nat (length (cells data0)) = LEN
    ∧ zsum (cells data0) = ITERS
    ∧ hints data0 = []
    ∧ Z.of_nat (length (hints data1)) = ITERS.
Proof.
  assert (1 < LEN) as Hlen by (by vm_compute).
  assert (0 <= LEN) as Hlen0 by (by vm_compute).
  assert (0 < NAHEAD <= RING_MAX) as Hn by (by vm_compute).
  assert (0 <= ITERS) as Hiters by (by vm_compute).
  assert (LONG_MIN <= 0 ∧ 0 + ITERS <= LONG_MAX) as Hzero by (by vm_compute).
  unfold main. cbv zeta.
  generalize dependent LEN. intros len Hlen Hlen0.
  generalize dependent ITERS. intros iters Hiters Hzero.
  generalize dependent NAHEAD. intros n Hn.
  assert (Z.of_nat (length (replicate (Z.to_nat len) 0)) = len) as Hl
    by (rewrite length_replicate; by apply Z2Nat.id).
  pose proof (Forall_replicate
                (λ c, LONG_MIN <= c ∧ c + iters <= LONG_MAX)
                (Z.to_nat len) 0 Hzero) as Hcs.
  destruct (run_sum (replicate (Z.to_nat len) 0) [] len iters n nop
              Hlen Hn Hiters Hl Hcs (or_introl eq_refl))
    as (d0 & Hd0 & Hl0 & Hsum0).
  destruct (traced_runs_hints (replicate (Z.to_nat len) 0) [] len iters n
              Hlen Hn Hl) as (s0 & s1 & Hs0 & Hh0 & Hs1 & Hh1).
  assert (0 < len) as Hlen' by lia.
  pose proof (traced_highs_length _ _ _ _ _ _ _ Hlen' Hn Hs1) as Hhl.
  pose proof (traced_erase _ _ _ _ _ _ _ _ Hs0) as Hm0.
  pose proof (traced_erase _ _ _ _ _ _ _ _ Hs1) as Hm1.
  rewrite Hd0 in Hm0. injection Hm0 as Hm0.
  set (m1 := (st_data s1).1) in *.
  exists d0, m1. rewrite Hd0. simpl_bind. rewrite Hm1. simpl_bind.
  split; [reflexivity|]. split; [exact (runs_agree _ _ _ _ _ _ _ Hd0 Hm1)|].
  split; [by rewrite Hl0|]. split; [rewrite Hsum0, zsum_replicate; lia|].
  split; [by rewrite Hm0|].
  rewrite Hh1, app_nil_r, length_reverse, Hhl. by apply Z2Nat.id.
Qed.

(** ** The program with its parameters fixed *)

Lemma macros_fill k : ∀ buf i_buf index follow,
  Macros.fill k buf i_buf index follow = fill k buf i_buf index follow LEN.
Proof.
  induction k as [|k IH]; intros buf i_buf index follow; [done|].
  cbn [Macros.fill fill].
  destruct (store buf i_buf index) as [buf'|]; simpl_bind; [|done].
  destruct (reduce (u64 (index + follow)) LEN) as [[r c]|]; simpl_bind;
    [|done].
  apply IH.
Qed.

Lemma macros_inc_ring i : Macros.inc_ring i = inc_ring i NAHEAD.
Proof. reflexivity. Qed.

Lemma macros_dec_ring i : Macros.dec_ring i = dec_ring i NAHEAD.
Proof. reflexivity. Qed.

Lemma macros_iteration {D : Type} (oh ol : Macros.op_t D) s :
  Macros.iteration oh ol s = iteration LEN NAHEAD (with_len oh) (with_len ol) s.
Proof.
  unfold Macros.iteration, iteration.
  rewrite !macros_dec_ring, macros_inc_ring.
  unfold with_len. cbv beta. reflexivity.
Qed.

Lemma macros_loop {D : Type} (oh ol : Macros.op_t D) k : ∀ s,
  Macros.loop oh ol k s = loop LEN NAHEAD (with_len oh) (with_len ol) k s.
Proof.
  induction k as [|k IH]; intros s; [done|].
  cbn [Macros.loop loop]. rewrite macros_iteration.
  destruct (iteration LEN NAHEAD (with_len oh) (with_len ol) s) as [s'|];
    simpl_bind; [|done].
  apply IH.
Qed.

(** X15.  The program with its parameters fixed is the program with
    arguments at [LEN], [ITERS] and [NAHEAD]: its ring functions are
    [inc_ring] and [dec_ring] on a ring of [NAHEAD] slots, its traversal
    does to the data what [fibo_lookahead_foreach] does with those
    arguments, and its [main] leaves what [main] leaves. *)
Theorem macros_agree {D : Type} (d : D) (oh ol : Macros.op_t D) i :
  Macros.inc_ring i = inc_ring i NAHEAD
  ∧ Macros.dec_ring i = dec_ring i NAHEAD
  ∧ Macros.fibo_lookahead_foreach d oh ol =
      fibo_lookahead_foreach d LEN ITERS (with_len oh) (with_len ol) NAHEAD
  ∧ Macros.main = main.
Proof.
  assert (∀ (E : Type) (e : E) (f g : Macros.op_t E),
            Macros.fibo_lookahead_foreach e f g =
            fibo_lookahead_foreach e LEN ITERS (with_len f) (with_len g)
              NAHEAD) as Hrun.
  { intros E e f g.
    unfold Macros.fibo_lookahead_foreach, fibo_lookahead_foreach, traverse.
    unfold Macros.seed, seed. rewrite macros_fill.
    destruct (fill (Z.to_nat NAHEAD) (replicate (Z.to_nat NAHEAD) 0) 0 1 0 LEN)
      as [buf|]; simpl_bind; [|done].
    rewrite macros_loop.
    destruct (loop LEN NAHEAD (with_len f) (with_len g) (Z.to_nat ITERS)
                (State e buf 0)) as [s|]; [|done].
    simpl_bind. reflexivity. }
  split; [apply macros_inc_ring|]. split; [apply macros_dec_ring|].
  split; [apply Hrun|].
  unfold Macros.main, main. cbv zeta. rewrite !Hrun.
  change (with_len Macros.nop) with nop.
  change (with_len Macros.prefetch) with prefetch.
  change (with_len Macros.increment) with increment.
  reflexivity.
Qed.

(** ** What a run leaves in the ring *)

(** X16.  A run on a buffer length above 1 and a ring of
    [0 < n <= RING_MAX] slots, whatever its operations, leaves the ring
    with its [n] slots, every slot in [[0, len)], and [i_buf] at
    [iters mod n]. *)
Theorem ring_after_run {D : Type} len n (oh ol : op_t D) d iters s :
  1 < len → 0 < n <= RING_MAX → 0 <= iters →
  traverse len n oh ol d iters = Some s →
  Z.of_nat (length (st_buf s)) = n
  ∧ st_i_buf s = iters mod n
  ∧ Forall (λ v, 0 <= v < len) (st_buf s).
Proof.
  intros Hlen Hn Hiters Hs. unfold traverse in Hs.
  destruct (seed_spec n len) as (buf & Hseed & Hl & _); [lia|].
  pose proof (seed_range n len buf Hlen Hseed) as Hbuf.
  rewrite Hseed in Hs. simpl_bind in Hs.
  rewrite <- (Z2Nat.id iters) at 1 by done.
  apply (loop_partial len n oh ol
           (λ j t, Z.of_nat (length (st_buf t)) = n
                   ∧ st_i_buf t = Z.of_nat j mod n
                   ∧ Forall (in_range len) (st_buf t)))
    with (k := Z.to_nat iters) (s := State d buf 0); [| |done].
  - clear d buf Hseed Hl Hbuf Hs. intros j t t' (Hl & Hi & Hbuf) Hit.
    apply iteration_inv in Hit as (cur & a & b & d1 & d2 & _ & _ & _
                                   & _ & _ & ->); [|lia].
    cbn [st_buf st_i_buf]. split; [by rewrite length_insert|]. split.
    + rewrite Hi, inc_ring_mod; [f_equal; lia|].
      split; [lia|apply RING_MAX_INT_MAX, Hn].
    + apply Forall_insert; [done|]. apply Z.mod_pos_bound. lia.
  - cbn [st_buf st_i_buf]. split; [lia|]. split; [|done].
    change (Z.of_nat 0) with 0. by rewrite Z.mod_0_l by lia.
Qed.

Lemma ring_after_run_witness :
  let d := Mem (replicate 10 0) [] in
  let s := State (Mem [0; 2; 1; 1; 0; 0; 0; 0; 0; 0] []) [3; 5; 8] 1 in
  1 < 10 ∧ 0 < 3 <= RING_MAX ∧ 0 <= 4
  ∧ traverse 10 3 nop increment d 4 = Some s
  ∧ Z.of_nat (length (st_buf s)) = 3
  ∧ st_i_buf s = 4 mod 3
  ∧ Forall (λ v, 0 <= v < 10) (st_buf s).
Proof.
  intros d s.
  assert (1 < 10) as Hlen by lia.
  assert (0 < 3 <= RING_MAX) as Hn by (unfold RING_MAX; lia).
  assert (0 <= 4) as Hiters by lia.
  assert (traverse 10 3 nop increment d 4 = Some s) as Hs
    by (vm_compute; reflexivity).
  split; [exact Hlen|]. split; [exact Hn|]. split; [exact Hiters|].
  split; [exact Hs|].
  exact (ring_after_run 10 3 nop increment d 4 s Hlen Hn Hiters Hs).
Defined.

(** ** The limits of the ring size and of the reduction *)

(** X17.  A ring of more than [RING_MAX] slots (and at most [INT_MAX],
    the largest an [int] holds) cannot be traversed: the first iteration
    looks two positions back from position 0, [dec_ring] overflows there
    and the read is outside the ring, so a run of one iteration or more
    has no defined result. *)
Theorem ring_too_large {D : Type} (d : D) len iters (oh ol : op_t D) n :
  RING_MAX < n <= INT_MAX → 0 < iters →
  fibo_lookahead_foreach d len iters oh ol n = None.
Proof.
  intros Hn Hiters. unfold fibo_lookahead_foreach.
  by rewrite traverse_beyond_RING_MAX.
Qed.

Lemma ring_too_large_witness :
  RING_MAX < 2 ^ 30 + 1 <= INT_MAX ∧ 0 < 1
  ∧ fibo_lookahead_foreach (Mem [0; 0] []) 2 1 prefetch increment (2 ^ 30 + 1)
    = None.
Proof.
  assert (RING_MAX < 2 ^ 30 + 1 <= INT_MAX) as Hn
    by (unfold RING_MAX, INT_MAX; lia).
  assert (0 < 1) as Hiters by lia.
  split; [exact Hn|]. split; [exact Hiters|].
  exact (ring_too_large (Mem [0; 0] []) 2 1 prefetch increment (2 ^ 30 + 1)
           Hn Hiters).
Defined.

Lemma reduce_loop_short fuel : ∀ index len,
  0 < len → 0 <= index < 2 ^ 64 → (fuel <= Z.to_nat (index / len))%nat →
  reduce_loop fuel index len = None.
Proof.
  induction fuel as [|fuel IH]; intros index len Hlen Hi Hf; [done|].
  cbn [reduce_loop].
  assert (0 <= index / len) as Hq0 by (apply Z.div_pos; lia).
  destruct (Z.geb_spec index len) as [Hge|Hlt].
  - rewrite u64_id by lia.
    assert (index / len = (index - len) / len + 1) as Hq.
    { replace index with (index - len + 1 * len) at 1 by lia.
      rewrite Z.div_add by lia. done. }
    assert (0 <= (index - len) / len) by (apply Z.div_pos; lia).
    rewrite IH by lia. simpl_bind. reflexivity.
  - rewrite Z.div_small in Hf by lia. change (Z.to_nat 0) with O in Hf. lia.
Qed.

(** X18.  The reduction by repeated subtraction of a [uint64_t] value
    [index], for a length above 0, makes [index / len] subtractions and
    leaves [index mod len]: it ends exactly when it is allowed more than
    [index / len] tests of its condition.  For a length of 0 it never
    ends. *)
Theorem reduce_loop_cost fuel index len :
  0 <= index < 2 ^ 64 → 0 <= len →
  reduce_loop fuel index len =
    if decide (0 < len ∧ (Z.to_nat (index / len) < fuel)%nat)
    then Some (index mod len, Z.to_nat (index / len))
    else None.
Proof.
  intros Hi Hlen. case_decide as Hc.
  - destruct Hc as [Hpos Hf]. by apply reduce_loop_spec.
  - destruct (decide (len = 0)) as [->|Hne].
    + apply reduce_loop_diverges. lia.
    + apply reduce_loop_short; [lia|done|]. lia.
Qed.

Lemma reduce_loop_cost_witness :
  0 <= 47 < 2 ^ 64 ∧ 0 <= 10
  ∧ reduce_loop 5 47 10 = Some (7, 4%nat)
  ∧ reduce_loop 4 47 10 = None.
Proof.
  assert (0 <= 47 < 2 ^ 64) as Hi by lia.
  assert (0 <= 10) as Hlen by lia.
  split; [exact Hi|]. split; [exact Hlen|]. split.
  - rewrite (reduce_loop_cost 5 47 10 Hi Hlen). reflexivity.
  - rewrite (reduce_loop_cost 4 47 10 Hi Hlen). reflexivity.
Defined.
